(** * demangle-ghc: a shallow embedding of [haskell_demangle]

    The development follows [demangle-ghc.c]: the two escape tables, the
    growable [str_buf] with its four operations, and the scanner loop of
    [haskell_demangle].  C integers are modelled as [Z] with the wrap-around
    of their width written out ([uint32_t]: 32 bits; [size_t]: 64 bits, the
    LP64 targets the code is built for).  The heap is modelled as far as the
    code can observe it: how many blocks are allocated, and whether the next
    [malloc]/[realloc] succeeds (an oracle indexed by the number of the
    allocation call).  Writing through a null pointer or outside the block a
    pointer refers to is undefined behaviour and reported as such. *)

From Stdlib Require Import ZArith List Bool Lia Ascii String.
Import ListNotations.
Local Open Scope Z_scope.

(** ** Characters and strings *)

(** A [char] is modelled by its byte value.  The scanner only compares bytes
    against ASCII constants, so the signedness of [char] is not observable:
    every comparison below gives the same answer for a byte above 127 read
    as a negative or as a positive value. *)
Definition ch (a : ascii) : Z := Z.of_N (N_of_ascii a).

(** The bytes of a C string literal, without its terminator. *)
Definition cstr (s : string) : list Z := map ch (list_ascii_of_string s).

(** [isdigit] and [isxdigit] of <ctype.h> in the "C" locale. *)
Definition isdigit (c : Z) : bool := (48 <=? c) && (c <=? 57).

Definition isxdigit (c : Z) : bool :=
  isdigit c || ((97 <=? c) && (c <=? 102)) || ((65 <=? c) && (c <=? 70)).

(** ** Fixed-width arithmetic *)

Definition wrap32 (x : Z) : Z := x mod 2 ^ 32.

Definition SIZE_BITS : Z := 64.

Definition wrap_size (x : Z) : Z := x mod 2 ^ SIZE_BITS.

(** Conversion of a [uint32_t] value to the [char] that is stored. *)
Definition to_char (x : Z) : Z := x mod 256.

(** ** The escape tables *)

(** [z_chars], indexed by [c - 'a']; the entries the initialiser does not
    name are zero. *)
Definition z_chars : list Z :=
  [ ch "&"; ch "|"; ch "^"; ch "$"; ch "="; 0;      ch ">"; ch "#"; ch "."
  ; 0;      0;      ch "<"; ch "-"; ch "!"; 0;      ch "+"; ch "'"; ch "\"
  ; ch "/"; ch "*"; ch "_"; ch "%"; 0;      0;      0;      ch "z" ].

(** [Z_chars], indexed by [c - 'C']. *)
Definition Z_chars : list Z :=
  [ ch ":"; 0; 0; 0; 0; 0; 0; 0; 0; ch "("; ch "["; ch "]"; 0; 0; 0; ch ")"
  ; 0; 0; 0; 0; 0; 0; 0; ch "Z" ].

Definition table_get (t : list Z) (i : Z) : Z := nth (Z.to_nat i) t 0.

(** ** Memory *)

(** One byte of an allocated block: [None] is a byte that was never written
    (its value is indeterminate). *)
Definition cell : Type := option Z.

Definition block : Type := list cell.

(** A pointer to the start of a heap block, or [NULL].  The code holds one
    pointer at a time, so a pointer is modelled by the block it refers to. *)
Definition ptr : Type := option block.

(** What the code can observe of the heap: [live] counts the blocks that are
    allocated and not yet freed, [nalloc] counts the calls to [malloc] and
    [realloc] made so far. *)
Record heap : Type := mkHeap { live : nat; nalloc : nat }.

Record str_buf : Type := mkBuf { capacity : Z; length : Z; data : ptr }.

(** Result of a piece of code that may have undefined behaviour. *)
Inductive ub (A : Type) : Type :=
| Def (a : A)
| Undef.
Arguments Def {A} a.
Arguments Undef {A}.

Definition fresh (n : Z) : block := repeat None (Z.to_nat n).

(** The block [realloc] returns: the old bytes up to the smaller of the two
    sizes, then indeterminate bytes. *)
Definition resize (blk : block) (n : Z) : block :=
  firstn (Z.to_nat n) blk
  ++ repeat None (Z.to_nat n - List.length blk)%nat.

(** [blk[i] = x], for [i] inside the block. *)
Definition store (blk : block) (i : Z) (x : cell) : block :=
  firstn (Z.to_nat i) blk ++ x :: skipn (S (Z.to_nat i)) blk.

Section Allocator.

(** [alloc_ok k] tells whether the [k]-th allocation call succeeds. *)
Variable alloc_ok : nat -> bool.

Definition malloc (h : heap) (n : Z) : ptr * heap :=
  if alloc_ok (nalloc h)
  then (Some (fresh n), mkHeap (S (live h)) (S (nalloc h)))
  else (None, mkHeap (live h) (S (nalloc h))).

(** [realloc(p, n)] for [n > 0]: with a null [p] it is [malloc(n)]; when it
    fails the old block stays allocated. *)
Definition realloc (h : heap) (p : ptr) (n : Z) : ptr * heap :=
  match p with
  | None => malloc h n
  | Some blk =>
      if alloc_ok (nalloc h)
      then (Some (resize blk n), mkHeap (live h) (S (nalloc h)))
      else (None, mkHeap (live h) (S (nalloc h)))
  end.

Definition free (h : heap) (p : ptr) : heap :=
  match p with
  | None => h
  | Some _ => mkHeap (pred (live h)) (nalloc h)
  end.

(** ** The output accumulator *)

(** [buf->data[buf->length++] = c]. *)
Definition put (b : str_buf) (c : Z) : ub str_buf :=
  match data b with
  | None => Undef
  | Some blk =>
      if (0 <=? length b) && (length b <? Z.of_nat (List.length blk))
      then Def (mkBuf (capacity b) (wrap_size (length b + 1))
                      (Some (store blk (length b) (Some c))))
      else Undef
  end.

(** [str_buf_push]; the boolean is the C return value, [true] signals an
    error. *)
Definition str_buf_push (h : heap) (b : str_buf) (c : Z)
  : ub (bool * str_buf * heap) :=
  if length b =? capacity b then
    let cap := wrap_size (capacity b + capacity b / 2) in
    let '(p, h1) := realloc h (data b) cap in
    let b1 := mkBuf cap (length b) p in
    match p with
    | None => Def (true, b1, h1)
    | Some _ =>
        match put b1 c with
        | Def b2 => Def (false, b2, h1)
        | Undef => Undef
        end
    end
  else
    match put b c with
    | Def b2 => Def (false, b2, h)
    | Undef => Undef
    end.

(** [str_buf_reserve]. *)
Definition str_buf_reserve (h : heap) (b : str_buf) (amt : Z)
  : bool * str_buf * heap :=
  let new_len := wrap_size (length b + amt) in
  let cap0 := capacity b in
  if new_len >? cap0 then
    let cap :=
      if new_len >? wrap_size (cap0 + cap0 / 2)
      then new_len
      else wrap_size (cap0 + cap0 / 2) in
    let '(p, h1) := realloc h (data b) cap in
    match p with
    | None => (true, mkBuf (capacity b) (length b) None, h1)
    | Some _ => (false, mkBuf cap (length b) p, h1)
    end
  else (false, b, h).

(** [memcpy(dst, src, len)] with [dst] the start of a block. *)
Definition memcpy (dst : ptr) (src : list Z) : ub block :=
  match dst with
  | None => Undef
  | Some blk =>
      if (List.length src <=? List.length blk)%nat
      then Def (map (fun c => Some c) src ++ skipn (List.length src) blk)
      else Undef
  end.

(** [str_buf_push_str]: the destination of the copy is [buf->data]. *)
Definition str_buf_push_str (h : heap) (b : str_buf) (str : list Z)
  : ub (bool * str_buf * heap) :=
  let len := Z.of_nat (List.length str) in
  let '(err, b1, h1) := str_buf_reserve h b len in
  if err then Def (true, b1, h1)
  else
    match memcpy (data b1) str with
    | Undef => Undef
    | Def blk =>
        Def (false,
             mkBuf (capacity b1) (wrap_size (length b1 + len)) (Some blk),
             h1)
    end.

Fixpoint put_all (b : str_buf) (cs : list Z) : ub str_buf :=
  match cs with
  | [] => Def b
  | c :: cs' =>
      match put b c with
      | Def b1 => put_all b1 cs'
      | Undef => Undef
      end
  end.

(** The bytes [str_buf_push_char_code] writes for a code point, or [None]
    above 0x10FFFF. *)
Definition char_code_bytes (char_code : Z) : option (list Z) :=
  if char_code <=? 0x7F then
    Some [to_char char_code]
  else if char_code <=? 0x7FF then
    Some [ to_char (Z.lor (Z.land (Z.shiftr char_code 6) 0x1F) 0xC0)
         ; to_char (Z.lor (Z.land (Z.shiftr char_code 0) 0x3F) 0x80) ]
  else if char_code <=? 0xFFFF then
    Some [ to_char (Z.lor (Z.land (Z.shiftr char_code 12) 0x0F) 0xE0)
         ; to_char (Z.lor (Z.land (Z.shiftr char_code 6) 0x3F) 0x80)
         ; to_char (Z.lor (Z.land (Z.shiftr char_code 0) 0x3F) 0x80) ]
  else if char_code <=? 0x10FFFF then
    Some [ to_char (Z.lor (Z.land (Z.shiftr char_code 18) 0x07) 0xF0)
         ; to_char (Z.lor (Z.land (Z.shiftr char_code 12) 0x3F) 0x80)
         ; to_char (Z.lor (Z.land (Z.shiftr char_code 6) 0x3F) 0x80)
         ; to_char (Z.lor (Z.land (Z.shiftr char_code 0) 0x3F) 0x80) ]
  else None.

(** [str_buf_push_char_code]. *)
Definition str_buf_push_char_code (h : heap) (b : str_buf) (char_code : Z)
  : ub (bool * str_buf * heap) :=
  let '(err, b1, h1) := str_buf_reserve h b 4 in
  if err then Def (true, b1, h1)
  else
    match char_code_bytes char_code with
    | None => Def (true, b1, h1)
    | Some cs =>
        match put_all b1 cs with
        | Def b2 => Def (false, b2, h1)
        | Undef => Undef
        end
    end.

End Allocator.

(** ** The scanner *)

(** What a call of [haskell_demangle] amounts to.  [leaked] counts the heap
    blocks that are still allocated when the call returns and that nothing
    points to any more. *)
Inductive outcome : Type :=
| Returned (res : block) (leaked : nat)
| Failed (leaked : nat)
| Undefined.

(** One pass through the body of the [while (true)] loop. *)
Inductive step : Type :=
| Continue (h : heap) (b : str_buf) (rest : list Z)
| Stop (o : outcome).

(** The cursor is the list of the bytes that are still to be read; at the end
    of the list stands the terminator.  [PEEK] is the byte under the cursor
    and [ADVANCE] moves the cursor by one byte. *)
Definition peek (l : list Z) : Z := hd 0 l.

Definition advance (l : list Z) : list Z := tl l.

(** Body of the hexadecimal [do ... while] loop, before [ADVANCE]. *)
Definition hex_body (char_code c : Z) : Z :=
  let char_code := wrap32 (char_code * 16) in
  if c <=? ch "9"
  then wrap32 (char_code + (c - ch "0"))
  else wrap32 (char_code + (10 + c - ch "a")).

(** The iterations of the hexadecimal loop after the first one. *)
Fixpoint hex_loop (char_code : Z) (l : list Z) : Z * list Z :=
  match l with
  | c :: l' =>
      if isxdigit c then hex_loop (hex_body char_code c) l'
      else (char_code, l)
  | [] => (char_code, l)
  end.

Definition dec_body (arity c : Z) : Z :=
  let arity := wrap32 (arity * 10) in
  wrap32 (arity + (c - ch "0")).

(** The iterations of the decimal loop after the first one. *)
Fixpoint dec_loop (arity : Z) (l : list Z) : Z * list Z :=
  match l with
  | c :: l' =>
      if isdigit c then dec_loop (dec_body arity c) l'
      else (arity, l)
  | [] => (arity, l)
  end.

Definition DEFAULT_BUF_SIZE : Z := 20.

Section Scanner.

Variable alloc_ok : nat -> bool.

(** The code at the label [fail]. *)
Definition fail (h : heap) (b : str_buf) : step :=
  Stop (Failed (live (free h (data b)))).

(** The macro [PUSH(c)], followed by [ADVANCE; continue]. *)
Definition push_advance (h : heap) (b : str_buf) (c : Z) (l : list Z)
  : step :=
  match str_buf_push alloc_ok h b c with
  | Undef => Stop Undefined
  | Def (true, b1, h1) => fail h1 b1
  | Def (false, b1, h1) => Continue h1 b1 (advance l)
  end.

(** The macro [RESERVE(amt)], followed by writes of [cs] through
    [buf.data[buf.length++]] and [continue]. *)
Definition reserve_write (h : heap) (b : str_buf) (amt : Z) (cs : list Z)
           (l : list Z) : step :=
  match str_buf_reserve alloc_ok h b amt with
  | (true, b1, h1) => fail h1 b1
  | (false, b1, h1) =>
      match put_all b1 cs with
      | Def b2 => Continue h1 b2 l
      | Undef => Stop Undefined
      end
  end.

(** The commas of the loop [for (size_t i = 1; i < arity; i++)]. *)
Definition commas (arity : Z) : list Z :=
  repeat (ch ",") (Z.to_nat (arity - 1)).

(** The [switch (PEEK)] after the decimal run of a tuple escape; [l] is the
    cursor at the byte that ended the run. *)
Definition tuple_escape (h : heap) (b : str_buf) (arity : Z) (l : list Z)
  : step :=
  if peek l =? ch "T" then
    let l := advance l in
    if arity =? 0 then
      reserve_write h b 2 [ch "("; ch ")"] l
    else if arity =? 1 then
      fail h b
    else
      reserve_write h b (wrap32 (arity + 1))
                    (ch "(" :: commas arity ++ [ch ")"]) l
  else if peek l =? ch "H" then
    let l := advance l in
    if arity =? 0 then
      fail h b
    else if arity =? 1 then
      match str_buf_push_str alloc_ok h b (cstr "(# #)") with
      | Undef => Stop Undefined
      | Def (true, b1, h1) => fail h1 b1
      | Def (false, b1, h1) => Continue h1 b1 l
      end
    else
      reserve_write h b (wrap32 (arity + 3))
                    (ch "(" :: ch "#" :: commas arity ++ [ch "#"; ch ")"]) l
  else fail h b.

(** The body of the [while (true)] loop: the [switch (PEEK)]. *)
Definition iter (h : heap) (b : str_buf) (l : list Z) : step :=
  if peek l =? ch "z" then
    let l := advance l in
    if isdigit (peek l) then
      let '(char_code, l) := hex_loop (hex_body 0 (peek l)) (advance l) in
      if negb (peek l =? ch "U") then fail h b
      else
        match str_buf_push_char_code alloc_ok h b char_code with
        | Undef => Stop Undefined
        | Def (true, b1, h1) => fail h1 b1
        | Def (false, b1, h1) => Continue h1 b1 (advance l)
        end
    else if (peek l <? ch "a") || (peek l >? ch "z") then fail h b
    else
      let out := table_get z_chars (peek l - ch "a") in
      if out =? 0 then fail h b
      else push_advance h b out l
  else if peek l =? ch "Z" then
    let l := advance l in
    if isdigit (peek l) then
      let '(arity, l) := dec_loop (dec_body 0 (peek l)) (advance l) in
      tuple_escape h b arity l
    else
      if (peek l <? ch "C") || (peek l >? ch "Z") then fail h b
      else
        let out := table_get Z_chars (peek l - ch "C") in
        if out =? 0 then fail h b
        else push_advance h b out l
  else if peek l =? 0 then
    match str_buf_push alloc_ok h b 0 with
    | Undef => Stop Undefined
    | Def (true, b1, h1) => fail h1 b1
    | Def (false, b1, h1) =>
        match realloc alloc_ok h1 (data b1) (length b1) with
        | (None, h2) => fail h2 b1
        | (Some res, h2) => Stop (Returned res (pred (live h2)))
        end
    end
  else push_advance h b (peek l) l.

(** The loop, cut off after [fuel] passes. *)
Fixpoint run (fuel : nat) (h : heap) (b : str_buf) (l : list Z)
  : option outcome :=
  match fuel with
  | O => None
  | S fuel' =>
      match iter h b l with
      | Stop o => Some o
      | Continue h1 b1 l1 => run fuel' h1 b1 l1
      end
  end.

(** The loop started in an arbitrary state of the accumulator. *)
Definition scan (h : heap) (b : str_buf) (l : list Z) : option outcome :=
  run (S (List.length l)) h b l.

(** [haskell_demangle]: the buffer is initialised with the result of an
    unchecked [malloc], then the loop runs. *)
Definition haskell_demangle (mangled : list Z) : option outcome :=
  let '(p, h) := malloc alloc_ok (mkHeap 0 0) DEFAULT_BUF_SIZE in
  scan h (mkBuf DEFAULT_BUF_SIZE 0 p) mangled.

End Scanner.

(** Every allocation succeeds. *)
Definition enough_memory : nat -> bool := fun _ => true.

(** Only the [k]-th allocation call fails. *)
Definition fails_at (k : nat) : nat -> bool := fun i => negb (Nat.eqb i k).

(** The block a successful call returns for the decoded text [s]: its bytes
    and the terminator, nothing more. *)
Definition c_block (s : list Z) : block := map (fun c => Some c) (s ++ [0]).

(** The call on a string literal when no allocation fails. *)
Definition decode (s : string) : option outcome :=
  haskell_demangle enough_memory (cstr s).

(** ** Notions used to state the properties *)

(** The bytes written so far: the first [length] bytes of the block. *)
Definition written (b : str_buf) : option (list cell) :=
  match data b with
  | Some blk => Some (firstn (Z.to_nat (length b)) blk)
  | None => None
  end.

(** [holds b w]: the accumulator owns a block of [capacity] bytes whose first
    [length] bytes are the text [w]. *)
Definition holds (b : str_buf) (w : list Z) : Prop :=
  exists blk,
    data b = Some blk
    /\ Z.of_nat (List.length blk) = capacity b
    /\ length b = Z.of_nat (List.length w)
    /\ firstn (List.length w) blk = map (fun c => Some c) w.

(** The number a run of decimal digits denotes. *)
Definition decimal_value (ds : list Z) : Z :=
  fold_left (fun v c => v * 10 + (c - ch "0")) ds 0.

(** The digits and the lowercase letters [a] to [f]. *)
Definition is_lower_hex (c : Z) : bool :=
  isdigit c || ((ch "a" <=? c) && (c <=? ch "f")).

Definition hex_digit_value (c : Z) : Z :=
  if isdigit c then c - ch "0" else 10 + (c - ch "a").

(** The number a run of hexadecimal digits denotes. *)
Definition hex_value (ds : list Z) : Z :=
  fold_left (fun v c => v * 16 + hex_digit_value c) ds 0.

(** A byte of a C string that is neither of the two escape introducers. *)
Definition is_literal (c : Z) : bool :=
  negb (c =? 0) && negb (c =? ch "z") && negb (c =? ch "Z").

(** A pass that continues does so with fewer than [n] bytes to read. *)
Definition shorter (n : nat) (s : step) : Prop :=
  match s with
  | Continue _ _ l' => (List.length l' < n)%nat
  | Stop _ => True
  end.

(** An accumulator with the one byte [a] written. *)
Definition buf_a : str_buf :=
  mkBuf 20 1 (Some (Some (ch "a") :: repeat None 19)).

(** ** The text level of the scanner *)

(** What one pass of the loop body does to the decoded text: it appends
    bytes and moves the cursor, reaches the terminator, or takes the jump to
    [fail].  [TSlip] marks the passes whose effect is not an append: the
    reservation of a tuple whose size wraps around in 32 bits, and
    [str_buf_push_str] behind earlier output. *)
Inductive token : Type :=
| TText (cs : list Z) (rest : list Z)
| TEnd
| TBad
| TSlip.

Definition is_nil (w : list Z) : bool :=
  match w with
  | [] => true
  | _ :: _ => false
  end.

(** The [switch (PEEK)] after a decimal run, read as text; [fresh] tells
    whether nothing has been written so far. *)
Definition tuple_text (fresh : bool) (arity : Z) (l : list Z) : token :=
  if peek l =? ch "T" then
    if arity =? 0 then TText (cstr "()") (advance l)
    else if arity =? 1 then TBad
    else if arity + 1 <? 2 ^ 32
         then TText (ch "(" :: commas arity ++ [ch ")"]) (advance l)
         else TSlip
  else if peek l =? ch "H" then
    if arity =? 0 then TBad
    else if arity =? 1 then
      if fresh then TText (cstr "(# #)") (advance l) else TSlip
    else if arity + 3 <? 2 ^ 32
         then TText (ch "(" :: ch "#" :: commas arity ++ [ch "#"; ch ")"])
                    (advance l)
         else TSlip
  else TBad.

(** The loop body read as text. *)
Definition next_token (fresh : bool) (l : list Z) : token :=
  if peek l =? ch "z" then
    let l := advance l in
    if isdigit (peek l) then
      let '(char_code, l) := hex_loop (hex_body 0 (peek l)) (advance l) in
      if negb (peek l =? ch "U") then TBad
      else
        match char_code_bytes char_code with
        | Some cs => TText cs (advance l)
        | None => TBad
        end
    else if (peek l <? ch "a") || (peek l >? ch "z") then TBad
    else
      let out := table_get z_chars (peek l - ch "a") in
      if out =? 0 then TBad else TText [out] (advance l)
  else if peek l =? ch "Z" then
    let l := advance l in
    if isdigit (peek l) then
      let '(arity, l) := dec_loop (dec_body 0 (peek l)) (advance l) in
      tuple_text fresh arity l
    else
      if (peek l <? ch "C") || (peek l >? ch "Z") then TBad
      else
        let out := table_get Z_chars (peek l - ch "C") in
        if out =? 0 then TBad else TText [out] (advance l)
  else if peek l =? 0 then TEnd
  else TText [peek l] (advance l).

(** The decoded text of a whole input, the text before the jump to [fail],
    or the remark that a pass was not an append. *)
Inductive text_result : Type :=
| Text (w : list Z)
| Bad (w : list Z)
| Slip.

Fixpoint text_run (fuel : nat) (w : list Z) (l : list Z)
  : option text_result :=
  match fuel with
  | O => None
  | S fuel' =>
      match next_token (is_nil w) l with
      | TText cs rest => text_run fuel' (w ++ cs) rest
      | TEnd => Some (Text w)
      | TBad => Some (Bad w)
      | TSlip => Some Slip
      end
  end.

Definition demangle_text (l : list Z) : option text_result :=
  text_run (S (List.length l)) [] l.

(** The largest number of bytes one pass reserves. *)
Definition MAX_RESERVE : Z := 2 ^ 32 + 2.

(** A state in which the loop can go on: the accumulator holds [w] in the
    one block that is allocated, and its capacity is at most one and a half
    times what has been asked for so far. *)
Definition ready (h : heap) (b : str_buf) (w : list Z) : Prop :=
  holds b w
  /\ live h = 1%nat
  /\ 2 <= capacity b
  /\ 2 * capacity b <= Z.max 40 (3 * (length b + MAX_RESERVE)).

(** A pass of the loop body does what its reading as text says. *)
Definition follows (w : list Z) (s : step) (t : token) : Prop :=
  match t with
  | TText cs rest =>
      exists h' b', s = Continue h' b' rest /\ ready h' b' (w ++ cs)
  | TEnd => s = Stop (Returned (c_block w) 0)
  | TBad => s = Stop (Failed 0)
  | TSlip => True
  end.

(** ** The heap at the end of a call *)

(** The accumulator points to the one allocated block, whose size fits a
    [size_t], or it holds a null pointer and nothing is allocated. *)
Definition owns (h : heap) (b : str_buf) : Prop :=
  match data b with
  | Some blk =>
      live h = 1%nat /\ Z.of_nat (List.length blk) < 2 ^ SIZE_BITS
  | None => live h = 0%nat
  end.

(** The accumulator after a function has reported an error: as before, or
    with a null pointer after a failed allocation, in which case the old
    block, if there was one, is still allocated. *)
Definition after_error (alloc_ok : nat -> bool) (h : heap) (b : str_buf)
  : Prop :=
  owns h b
  \/ (data b = None /\ (live h <= 1)%nat /\ exists k, alloc_ok k = false).

(** What a call may end in: a result that ends in the terminator with
    nothing else allocated, or a failure that leaves nothing allocated
    unless an allocation has failed, and then at most one block. *)
Definition tidy (alloc_ok : nat -> bool) (o : outcome) : Prop :=
  match o with
  | Returned res leaked => leaked = 0%nat /\ last res None = Some 0
  | Failed leaked =>
      leaked = 0%nat
      \/ (leaked = 1%nat /\ exists k, alloc_ok k = false)
  | Undefined => True
  end.

(** The same for one pass of the loop body. *)
Definition step_tidy (alloc_ok : nat -> bool) (s : step) : Prop :=
  match s with
  | Continue h b _ => owns h b
  | Stop o => tidy alloc_ok o
  end.

(** ** UTF-8 *)

Definition is_continuation (b : Z) : bool := (0x80 <=? b) && (b <? 0xC0).

(** The code point of a UTF-8 sequence of one to four bytes. *)
Definition utf8_decode (bs : list Z) : option Z :=
  match bs with
  | [b0] =>
      if (0 <=? b0) && (b0 <? 0x80) then Some b0 else None
  | [b0; b1] =>
      if (0xC0 <=? b0) && (b0 <? 0xE0) && is_continuation b1
      then Some ((b0 - 0xC0) * 64 + (b1 - 0x80))
      else None
  | [b0; b1; b2] =>
      if (0xE0 <=? b0) && (b0 <? 0xF0) && is_continuation b1
         && is_continuation b2
      then Some ((b0 - 0xE0) * 4096 + (b1 - 0x80) * 64 + (b2 - 0x80))
      else None
  | [b0; b1; b2; b3] =>
      if (0xF0 <=? b0) && (b0 <? 0xF8) && is_continuation b1
         && is_continuation b2 && is_continuation b3
      then Some ((b0 - 0xF0) * 262144 + (b1 - 0x80) * 4096
                 + (b2 - 0x80) * 64 + (b3 - 0x80))
      else None
  | _ => None
  end.

(** ** The inverse reading of the escape tables *)

(** The index of the first entry of a table that is [c], counted from [i]. *)
Fixpoint find_index (t : list Z) (c : Z) (i : Z) : option Z :=
  match t with
  | [] => None
  | x :: t' => if x =? c then Some i else find_index t' c (i + 1)
  end.

(** A byte that has an entry in [z_chars] or [Z_chars] is written as the
    introducer and the letter of the entry; every other byte stands for
    itself. *)
Definition encode_char (c : Z) : list Z :=
  match find_index z_chars c 0 with
  | Some i => [ch "z"; ch "a" + i]
  | None =>
      match find_index Z_chars c 0 with
      | Some i => [ch "Z"; ch "C" + i]
      | None => [c]
      end
  end.

Definition encode (s : list Z) : list Z := flat_map encode_char s.

(** * Properties *)

(** ** Evaluation on concrete inputs *)

(** C1, on the code: [str_buf_push_str] copies to the start of the block and
    not behind the bytes written so far.  Appending the five bytes of
    "(# #)" to an accumulator that holds "a" succeeds, and afterwards the six
    bytes counted as written are "(# #)" and one byte that was never
    written; the "a" is gone.  The same happens in the call on "aZ1H",
    whose result is "(# #)", an indeterminate byte and the terminator. *)
Theorem str_buf_push_str_overwrites :
  written buf_a = Some [Some (ch "a")]
  /\ exists b' h',
       str_buf_push_str enough_memory (mkHeap 1 1) buf_a (cstr "(# #)")
       = Def (false, b', h')
       /\ written b' = Some (map (fun c => Some c) (cstr "(# #)") ++ [None])
       /\ written b'
          <> Some (map (fun c => Some c) (cstr "a" ++ cstr "(# #)"))
       /\ decode "aZ1H"
          = Some (Returned
                    (map (fun c => Some c) (cstr "(# #)") ++ [None; Some 0])
                    0).
Proof.
  split; [reflexivity|].
  eexists; eexists; split; [reflexivity|].
  split; [reflexivity|]. split; [discriminate|reflexivity].
Qed.

(** C2, on the code: the result of the initial [malloc] is not checked, so
    when it fails the first write goes through a null pointer; and when a
    [realloc] of [str_buf_push] fails, the call returns failure while the old
    block is still allocated.  Only the failure of the last [realloc], which
    trims the result, is handled without a leak. *)
Theorem allocation_failure_not_clean :
  haskell_demangle (fails_at 0) (cstr "") = Some Undefined
  /\ haskell_demangle (fails_at 0) (cstr "abc") = Some Undefined
  /\ haskell_demangle (fails_at 1) (cstr "aaaaaaaaaaaaaaaaaaaaa")
     = Some (Failed 1)
  /\ haskell_demangle (fails_at 1) (cstr "aaaaaaaaaaaaaaaaZ5T")
     = Some (Failed 1)
  /\ haskell_demangle (fails_at 1) (cstr "abc") = Some (Failed 0).
Proof. repeat split; reflexivity. Qed.

(** C3, as stated, is false: the decoding of "ZZT" is not "()". *)
Lemma decode_ZZT_is_not_unit :
  decode "ZZT" <> Some (Returned (c_block (cstr "()")) 0).
Proof. discriminate. Qed.

(** C3, amended: "ZZ" is the escape of the letter Z, so "ZZT" decodes to the
    two characters "ZT"; the string that decodes to "()" is "Z0T". *)
Theorem decode_ZZT :
  decode "ZZT" = Some (Returned (c_block (cstr "ZT")) 0)
  /\ decode "Z0T" = Some (Returned (c_block (cstr "()")) 0).
Proof. split; reflexivity. Qed.

(** C4, on the code: the hexadecimal run is continued by [isxdigit], which
    accepts the uppercase letters A to F as well.  In "z4AU" the A is part of
    the run (and counted as 10 + 'A' - 'a' = -22), the call succeeds and
    returns "*"; "z41X" fails as the claim says. *)
Theorem uppercase_hex_in_run :
  hex_loop (hex_body 0 (ch "4")) (cstr "AU") = (42, cstr "U")
  /\ decode "z4AU" = Some (Returned (c_block (cstr "*")) 0)
  /\ decode "z41X" = Some (Failed 0)
  /\ decode "z41U" = Some (Returned (c_block (cstr "A")) 0).
Proof. repeat split; reflexivity. Qed.

(** C5, as stated, is false: the run "100000041" denotes a value above
    0x10FFFF, and the call succeeds and returns "A". *)
Lemma large_code_point_accepted :
  0x10FFFF < hex_value (cstr "100000041")
  /\ decode "z100000041U" = Some (Returned (c_block (cstr "A")) 0).
Proof. split; reflexivity. Qed.

(** C6, as stated, is false: the run "4294967297" denotes an arity of at
    least 2, and the call fails. *)
Lemma large_arity_tuple_fails :
  2 <= decimal_value (cstr "4294967297")
  /\ decode "Z4294967297T" = Some (Failed 0).
Proof. split; [discriminate|reflexivity]. Qed.

(** C7, as stated, is false: the run "4294967297" denotes an arity of at
    least 2, and the call returns the text of the unboxed tuple of arity 1,
    which has no comma. *)
Lemma large_arity_unboxed_tuple :
  2 <= decimal_value (cstr "4294967297")
  /\ decode "Z4294967297H" = Some (Returned (c_block (cstr "(# #)")) 0).
Proof. split; [discriminate|reflexivity]. Qed.

(** ** Blocks *)

Lemma two_pow_size : 2 ^ SIZE_BITS = 18446744073709551616.
Proof. reflexivity. Qed.

Lemma wrap_size_small x : 0 <= x < 2 ^ SIZE_BITS -> wrap_size x = x.
Proof. intros H. unfold wrap_size. apply Z.mod_small. exact H. Qed.

Lemma length_store (blk : block) (n : nat) (x : cell) :
  (n < List.length blk)%nat ->
  List.length (store blk (Z.of_nat n) x) = List.length blk.
Proof.
  intros Hn. unfold store. rewrite Nat2Z.id.
  rewrite length_app. cbn [List.length].
  rewrite length_firstn, length_skipn. lia.
Qed.

Lemma firstn_store (blk : block) (n : nat) (x : cell) :
  (n < List.length blk)%nat ->
  firstn (S n) (store blk (Z.of_nat n) x) = firstn n blk ++ [x].
Proof.
  intros Hn. unfold store. rewrite Nat2Z.id.
  assert (Hl : List.length (firstn n blk) = n)
    by (rewrite length_firstn; lia).
  rewrite firstn_app, Hl.
  rewrite firstn_all2 by lia.
  replace (S n - n)%nat with 1%nat by lia. reflexivity.
Qed.

Lemma length_resize (blk : block) (n : Z) :
  List.length (resize blk n) = Z.to_nat n.
Proof.
  unfold resize. rewrite length_app, length_firstn, repeat_length. lia.
Qed.

Lemma firstn_resize (blk : block) (n : Z) (k : nat) :
  (k <= List.length blk)%nat -> (k <= Z.to_nat n)%nat ->
  firstn k (resize blk n) = firstn k blk.
Proof.
  intros Hk Hn. unfold resize.
  rewrite firstn_app, firstn_firstn, length_firstn.
  replace (Init.Nat.min k (Z.to_nat n)) with k by lia.
  replace (k - Init.Nat.min (Z.to_nat n) (List.length blk))%nat with 0%nat
    by lia.
  rewrite firstn_0, app_nil_r. reflexivity.
Qed.

(** Trimming a block to the bytes written gives exactly these bytes. *)
Lemma resize_exact (blk : block) (w : list Z) :
  firstn (List.length w) blk = map (fun c => Some c) w ->
  resize blk (Z.of_nat (List.length w)) = map (fun c => Some c) w.
Proof.
  intros Hw. unfold resize. rewrite Nat2Z.id, Hw.
  assert (Hl : (List.length w <= List.length blk)%nat).
  { apply (f_equal (@List.length cell)) in Hw.
    rewrite length_firstn, length_map in Hw. lia. }
  replace (List.length w - List.length blk)%nat with 0%nat by lia.
  apply app_nil_r.
Qed.

Lemma holds_within (b : str_buf) (w : list Z) :
  holds b w -> 0 <= length b <= capacity b.
Proof.
  intros (blk & _ & Hsz & Hlen & Hw).
  apply (f_equal (@List.length cell)) in Hw.
  rewrite length_firstn, length_map in Hw. lia.
Qed.

(** ** The accumulator *)

Lemma put_holds (b : str_buf) (w : list Z) (c : Z) :
  holds b w -> length b < capacity b -> capacity b < 2 ^ SIZE_BITS ->
  exists b', put b c = Def b'
             /\ holds b' (w ++ [c])
             /\ capacity b' = capacity b.
Proof.
  intros (blk & Hd & Hsz & Hlen & Hw) Hroom Hcap.
  unfold put. rewrite Hd.
  assert (Hin : (List.length w < List.length blk)%nat) by lia.
  replace ((0 <=? length b) && (length b <? Z.of_nat (List.length blk)))
    with true by (symmetry; apply andb_true_iff; split; lia).
  eexists. split; [reflexivity|]. split; [|reflexivity].
  exists (store blk (length b) (Some c)). cbn [data capacity length].
  rewrite Hlen. split; [reflexivity|].
  rewrite length_store by exact Hin.
  split; [exact Hsz|]. split.
  - rewrite wrap_size_small by lia. rewrite length_app. cbn [List.length]. lia.
  - rewrite length_app. cbn [List.length].
    replace (List.length w + 1)%nat with (S (List.length w)) by lia.
    rewrite firstn_store by exact Hin.
    rewrite Hw, map_app. reflexivity.
Qed.

Lemma put_all_holds (cs : list Z) : forall (b : str_buf) (w : list Z),
  holds b w ->
  length b + Z.of_nat (List.length cs) <= capacity b ->
  capacity b < 2 ^ SIZE_BITS ->
  exists b', put_all b cs = Def b'
             /\ holds b' (w ++ cs)
             /\ capacity b' = capacity b.
Proof.
  induction cs as [|c cs IH]; intros b w Hb Hroom Hcap.
  - exists b. rewrite app_nil_r. auto.
  - cbn [List.length] in Hroom.
    destruct (put_holds b w c Hb) as (b1 & Hput & Hb1 & Hc1); [lia..|].
    cbn [put_all]. rewrite Hput.
    assert (Hl1 : length b1 = length b + 1).
    { destruct Hb as (_ & _ & _ & Hl & _).
      destruct Hb1 as (_ & _ & _ & Hl1 & _).
      rewrite Hl1, Hl, length_app. cbn [List.length]. lia. }
    destruct (IH b1 (w ++ [c]) Hb1) as (b2 & Hall & Hb2 & Hc2); [lia..|].
    exists b2. rewrite <- app_assoc in Hb2. cbn [app] in Hb2.
    split; [exact Hall|]. split; [exact Hb2|]. lia.
Qed.

(** Writing more bytes than there is room for runs over the end of the
    block. *)
Lemma put_all_overflow (cs : list Z) : forall (b : str_buf) (w : list Z),
  holds b w ->
  capacity b < length b + Z.of_nat (List.length cs) ->
  capacity b < 2 ^ SIZE_BITS ->
  put_all b cs = Undef.
Proof.
  induction cs as [|c cs IH]; intros b w Hb Hover Hcap.
  - cbn [List.length] in Hover. apply holds_within in Hb. lia.
  - cbn [put_all].
    destruct (Z.ltb_spec (length b) (capacity b)) as [Hlt|Hge].
    + destruct (put_holds b w c Hb) as (b1 & Hput & Hb1 & Hc1); [lia..|].
      rewrite Hput.
      assert (Hl1 : length b1 = length b + 1).
      { destruct Hb as (_ & _ & _ & Hl & _).
        destruct Hb1 as (_ & _ & _ & Hl1 & _).
        rewrite Hl1, Hl, length_app. cbn [List.length]. lia. }
      apply (IH b1 (w ++ [c]) Hb1); cbn [List.length] in Hover; lia.
    + destruct Hb as (blk & Hd & Hsz & Hlen & Hw).
      unfold put. rewrite Hd.
      replace (length b <? Z.of_nat (List.length blk)) with false
        by (symmetry; apply Z.ltb_ge; lia).
      rewrite andb_false_r. reflexivity.
Qed.

Lemma realloc_block (alloc_ok : nat -> bool) (h : heap) (blk : block) (n : Z) :
  alloc_ok (nalloc h) = true ->
  realloc alloc_ok h (Some blk) n
  = (Some (resize blk n), mkHeap (live h) (S (nalloc h))).
Proof. intros Hok. unfold realloc. rewrite Hok. reflexivity. Qed.

Lemma holds_resize (b : str_buf) (w : list Z) (blk : block) (cap : Z) :
  data b = Some blk ->
  holds b w -> length b <= cap ->
  holds (mkBuf cap (length b) (Some (resize blk cap))) w.
Proof.
  intros Hd Hb Hcap.
  pose proof (holds_within b w Hb) as Hin.
  destruct Hb as (blk' & Hd' & Hsz & Hlen & Hw).
  rewrite Hd in Hd'. injection Hd' as <-.
  exists (resize blk cap). cbn [data capacity length].
  split; [reflexivity|]. rewrite length_resize.
  split; [lia|]. split; [exact Hlen|].
  rewrite firstn_resize by lia. exact Hw.
Qed.

Lemma reserve_holds (alloc_ok : nat -> bool) (h : heap) (b : str_buf)
      (w : list Z) (amt : Z) :
  holds b w -> alloc_ok (nalloc h) = true ->
  0 <= amt -> length b + amt < 2 ^ SIZE_BITS ->
  capacity b + capacity b / 2 < 2 ^ SIZE_BITS ->
  exists b' h',
    str_buf_reserve alloc_ok h b amt = (false, b', h')
    /\ holds b' w
    /\ length b + amt <= capacity b'
    /\ capacity b' < 2 ^ SIZE_BITS
    /\ live h' = live h.
Proof.
  intros Hb Hok Hamt Hlen Hcap.
  pose proof (holds_within b w Hb) as Hin.
  assert (Hhalf : 0 <= capacity b / 2) by (apply Z.div_pos; lia).
  unfold str_buf_reserve.
  rewrite (wrap_size_small (length b + amt)) by lia.
  rewrite (wrap_size_small (capacity b + capacity b / 2)) by lia.
  destruct (Z.gtb_spec (length b + amt) (capacity b)) as [Hgrow|Hfits].
  - destruct Hb as (blk & Hd & Hrest). rewrite Hd.
    rewrite realloc_block by exact Hok.
    assert (Hb : holds b w) by (exists blk; auto).
    destruct (Z.gtb_spec (length b + amt) (capacity b + capacity b / 2)).
    + eexists; eexists. split; [reflexivity|].
      split; [apply holds_resize; [exact Hd|exact Hb|lia]|].
      cbn [capacity live]. lia.
    + eexists; eexists. split; [reflexivity|].
      split; [apply holds_resize; [exact Hd|exact Hb|lia]|].
      cbn [capacity live]. lia.
  - exists b, h. repeat split; try assumption; lia.
Qed.

Lemma push_holds (alloc_ok : nat -> bool) (h : heap) (b : str_buf)
      (w : list Z) (c : Z) :
  holds b w -> alloc_ok (nalloc h) = true ->
  2 <= capacity b -> capacity b + capacity b / 2 < 2 ^ SIZE_BITS ->
  exists b' h',
    str_buf_push alloc_ok h b c = Def (false, b', h')
    /\ holds b' (w ++ [c])
    /\ live h' = live h
    /\ capacity b <= capacity b'
    /\ 2 * capacity b' <= Z.max (2 * capacity b) (3 * length b).
Proof.
  intros Hb Hok Htwo Hcap.
  pose proof (holds_within b w Hb) as Hin.
  assert (Hhalf : 1 <= capacity b / 2)
    by (apply Z.div_le_lower_bound; lia).
  assert (Hdiv : 2 * (capacity b / 2) <= capacity b)
    by (apply Z.mul_div_le; lia).
  unfold str_buf_push.
  destruct (Z.eqb_spec (length b) (capacity b)) as [Hfull|Hroom].
  - rewrite (wrap_size_small (capacity b + capacity b / 2)) by lia.
    destruct Hb as (blk & Hd & Hrest). rewrite Hd.
    rewrite realloc_block by exact Hok.
    assert (Hb : holds b w) by (exists blk; auto).
    pose proof (holds_resize b w blk (capacity b + capacity b / 2) Hd Hb)
      as Hb1.
    destruct (put_holds _ w c (Hb1 ltac:(lia))) as (b2 & Hput & Hb2 & Hc2);
      cbn [capacity length]; [lia..|].
    rewrite Hput. exists b2; eexists. split; [reflexivity|].
    split; [exact Hb2|]. cbn [capacity live] in *. lia.
  - destruct (put_holds b w c Hb) as (b2 & Hput & Hb2 & Hc2); [lia..|].
    rewrite Hput. exists b2, h. split; [reflexivity|].
    split; [exact Hb2|]. lia.
Qed.

(** ** Progress of the scanner *)

Lemma hex_loop_shorter (l : list Z) : forall char_code,
  (List.length (snd (hex_loop char_code l)) <= List.length l)%nat.
Proof.
  induction l as [|c l IH]; intros char_code; cbn [hex_loop].
  - apply Nat.le_refl.
  - destruct (isxdigit c); cbn [snd List.length].
    + specialize (IH (hex_body char_code c)). lia.
    + apply Nat.le_refl.
Qed.

Lemma dec_loop_shorter (l : list Z) : forall arity,
  (List.length (snd (dec_loop arity l)) <= List.length l)%nat.
Proof.
  induction l as [|c l IH]; intros arity; cbn [dec_loop].
  - apply Nat.le_refl.
  - destruct (isdigit c); cbn [snd List.length].
    + specialize (IH (dec_body arity c)). lia.
    + apply Nat.le_refl.
Qed.

Lemma advance_shorter (l : list Z) :
  (List.length (advance l) <= List.length l)%nat.
Proof. destruct l; cbn; lia. Qed.

Lemma advance_strictly_shorter (l : list Z) :
  peek l <> 0 -> (List.length (advance l) < List.length l)%nat.
Proof. destruct l; cbn; [congruence|lia]. Qed.

Lemma push_advance_shorter alloc_ok h b c l n :
  (List.length (advance l) < n)%nat ->
  shorter n (push_advance alloc_ok h b c l).
Proof.
  intros Hn. unfold push_advance.
  destruct (str_buf_push alloc_ok h b c) as [[[[] b1] h1]|]; cbn; auto.
Qed.

Lemma reserve_write_shorter alloc_ok h b amt cs l n :
  (List.length l < n)%nat ->
  shorter n (reserve_write alloc_ok h b amt cs l).
Proof.
  intros Hn. unfold reserve_write.
  destruct (str_buf_reserve alloc_ok h b amt) as [[[] b1] h1]; cbn; auto.
  destruct (put_all b1 cs); cbn; auto.
Qed.

Lemma tuple_escape_shorter alloc_ok h b arity l n :
  (List.length l <= n)%nat ->
  shorter n (tuple_escape alloc_ok h b arity l).
Proof.
  intros Hn. unfold tuple_escape.
  destruct (Z.eqb_spec (peek l) (ch "T")) as [HT|_].
  { assert (Hl : (List.length (advance l) < n)%nat).
    { pose proof (advance_strictly_shorter l). rewrite HT in H.
      specialize (H ltac:(discriminate)). lia. }
    destruct (arity =? 0); [apply reserve_write_shorter; exact Hl|].
    destruct (arity =? 1); [exact I|].
    apply reserve_write_shorter; exact Hl. }
  destruct (Z.eqb_spec (peek l) (ch "H")) as [HH|_]; [|exact I].
  assert (Hl : (List.length (advance l) < n)%nat).
  { pose proof (advance_strictly_shorter l). rewrite HH in H.
    specialize (H ltac:(discriminate)). lia. }
  destruct (arity =? 0); [exact I|].
  destruct (arity =? 1); [|apply reserve_write_shorter; exact Hl].
  destruct (str_buf_push_str _ _ _ _) as [[[[] b1] h1]|]; cbn; auto.
Qed.

Lemma iter_shorter alloc_ok h b l :
  shorter (List.length l) (iter alloc_ok h b l).
Proof.
  unfold iter.
  destruct (Z.eqb_spec (peek l) (ch "z")) as [Hz|_].
  { pose proof (advance_strictly_shorter l) as Hl. rewrite Hz in Hl.
    specialize (Hl ltac:(discriminate)).
    pose proof (advance_shorter (advance l)) as Hl1.
    destruct (isdigit (peek (advance l))).
    - pose proof (hex_loop_shorter (advance (advance l))
                    (hex_body 0 (peek (advance l)))) as Hrun.
      destruct (hex_loop _ _) as [char_code l2]. cbn [snd] in Hrun.
      destruct (negb _); [exact I|].
      pose proof (advance_shorter l2).
      destruct (str_buf_push_char_code _ _ _ _) as [[[[] b1] h1]|];
        cbn; auto; lia.
    - destruct (_ || _); [exact I|].
      destruct (_ =? 0); [exact I|].
      apply push_advance_shorter. lia. }
  destruct (Z.eqb_spec (peek l) (ch "Z")) as [HZ|_].
  { pose proof (advance_strictly_shorter l) as Hl. rewrite HZ in Hl.
    specialize (Hl ltac:(discriminate)).
    pose proof (advance_shorter (advance l)) as Hl1.
    destruct (isdigit (peek (advance l))).
    - pose proof (dec_loop_shorter (advance (advance l))
                    (dec_body 0 (peek (advance l)))) as Hrun.
      destruct (dec_loop _ _) as [arity l2]. cbn [snd] in Hrun.
      apply tuple_escape_shorter. lia.
    - destruct (_ || _); [exact I|].
      destruct (_ =? 0); [exact I|].
      apply push_advance_shorter. lia. }
  destruct (Z.eqb_spec (peek l) 0) as [H0|Hn0].
  { destruct (str_buf_push _ _ _ _) as [[[[] b1] h1]|]; cbn; auto.
    destruct (realloc _ _ _ _) as [[res|] h2]; cbn; auto. }
  apply push_advance_shorter. apply advance_strictly_shorter. exact Hn0.
Qed.

(** With more fuel than bytes to read the loop comes to an end, and the
    amount of fuel beyond that does not matter. *)
Lemma run_enough alloc_ok (fuel : nat) : forall h b l,
  (List.length l < fuel)%nat ->
  exists o, run alloc_ok fuel h b l = Some o.
Proof.
  induction fuel as [|fuel IH]; intros h b l Hl; [lia|].
  cbn [run]. pose proof (iter_shorter alloc_ok h b l) as Hs.
  destruct (iter alloc_ok h b l) as [h1 b1 l1|o]; cbn in Hs.
  - apply IH. lia.
  - exists o. reflexivity.
Qed.

Lemma run_fuel alloc_ok (f1 : nat) : forall f2 h b l,
  (List.length l < f1)%nat -> (List.length l < f2)%nat ->
  run alloc_ok f1 h b l = run alloc_ok f2 h b l.
Proof.
  induction f1 as [|f1 IH]; intros f2 h b l H1 H2; [lia|].
  destruct f2 as [|f2]; [lia|].
  cbn [run]. pose proof (iter_shorter alloc_ok h b l) as Hs.
  destruct (iter alloc_ok h b l) as [h1 b1 l1|o]; cbn in Hs.
  - apply IH; lia.
  - reflexivity.
Qed.

(** One pass of the loop, seen from [scan]. *)
Lemma scan_step alloc_ok h b l :
  scan alloc_ok h b l
  = match iter alloc_ok h b l with
    | Continue h1 b1 l1 => scan alloc_ok h1 b1 l1
    | Stop o => Some o
    end.
Proof.
  unfold scan at 1. cbn [run].
  pose proof (iter_shorter alloc_ok h b l) as Hs.
  destruct (iter alloc_ok h b l) as [h1 b1 l1|o]; cbn in Hs.
  - unfold scan. apply run_fuel; lia.
  - reflexivity.
Qed.

(** C9: every pass through the body of the loop either stops (with the
    result, with failure, or in undefined behaviour) or continues with
    strictly fewer bytes left to read; hence the loop, started in any state
    on any input, ends after at most one pass per byte and one for the
    terminator, and [haskell_demangle] has an outcome on every input and for
    every behaviour of the allocator. *)
Theorem haskell_demangle_terminates :
  forall (alloc_ok : nat -> bool) (h : heap) (b : str_buf) (l : list Z),
    match iter alloc_ok h b l with
    | Continue _ _ l' => (List.length l' < List.length l)%nat
    | Stop _ => True
    end
    /\ (exists o, run alloc_ok (S (List.length l)) h b l = Some o)
    /\ (exists o, haskell_demangle alloc_ok l = Some o).
Proof.
  intros alloc_ok h b l. split; [exact (iter_shorter alloc_ok h b l)|].
  split; [apply run_enough; lia|].
  unfold haskell_demangle.
  destruct (malloc alloc_ok _ _) as [p h0].
  apply run_enough. lia.
Qed.

(** ** Literal input *)

Lemma iter_terminator alloc_ok h b :
  iter alloc_ok h b []
  = match str_buf_push alloc_ok h b 0 with
    | Undef => Stop Undefined
    | Def (true, b1, h1) => fail h1 b1
    | Def (false, b1, h1) =>
        match realloc alloc_ok h1 (data b1) (length b1) with
        | (None, h2) => fail h2 b1
        | (Some res, h2) => Stop (Returned res (pred (live h2)))
        end
    end.
Proof. reflexivity. Qed.

Lemma iter_literal alloc_ok h b c l :
  is_literal c = true ->
  iter alloc_ok h b (c :: l) = push_advance alloc_ok h b c (c :: l).
Proof.
  unfold is_literal. intros Hc.
  apply andb_true_iff in Hc as [Hc HZ].
  apply andb_true_iff in Hc as [H0 Hz].
  apply negb_true_iff in H0, Hz, HZ.
  unfold iter. cbn [peek hd]. rewrite Hz, HZ, H0. reflexivity.
Qed.

Lemma scan_literals (s : list Z) : forall (h : heap) (b : str_buf) (w : list Z),
  holds b w -> live h = 1%nat ->
  2 <= capacity b -> 2 * capacity b <= Z.max 40 (3 * length b) ->
  forallb is_literal s = true ->
  Z.of_nat (List.length w + List.length s) < 2 ^ 62 ->
  scan enough_memory h b s = Some (Returned (c_block (w ++ s)) 0).
Proof.
  induction s as [|c s IH]; intros h b w Hb Hlive Htwo Hcap Hlit Hlen.
  - pose proof (holds_within b w Hb) as Hin.
    assert (Hl : length b < 2 ^ 62).
    { destruct Hb as (_ & _ & _ & Hl & _). rewrite Hl.
      cbn [List.length] in Hlen. lia. }
    assert (Hhalf : 2 * (capacity b / 2) <= capacity b)
      by (apply Z.mul_div_le; lia).
    destruct (push_holds enough_memory h b w 0 Hb)
      as (b1 & h1 & Hpush & Hb1 & Hl1 & _); [reflexivity|lia|rewrite two_pow_size; lia|].
    rewrite scan_step, iter_terminator, Hpush.
    destruct Hb1 as (blk & Hd & Hsz & Hlen1 & Hw).
    rewrite Hd, realloc_block by reflexivity.
    rewrite Hlen1, (resize_exact _ _ Hw).
    cbn [live]. rewrite Hl1, Hlive, app_nil_r. reflexivity.
  - cbn [forallb] in Hlit. apply andb_true_iff in Hlit as [Hc Hlit].
    pose proof (holds_within b w Hb) as Hin.
    assert (Hl : length b < 2 ^ 62).
    { destruct Hb as (_ & _ & _ & Hl & _). rewrite Hl.
      cbn [List.length] in Hlen. lia. }
    assert (Hhalf : 2 * (capacity b / 2) <= capacity b)
      by (apply Z.mul_div_le; lia).
    destruct (push_holds enough_memory h b w c Hb)
      as (b1 & h1 & Hpush & Hb1 & Hl1 & Hc1 & Hc2);
      [reflexivity|lia|rewrite two_pow_size; lia|].
    rewrite scan_step, (iter_literal _ _ _ _ _ Hc).
    unfold push_advance. rewrite Hpush. cbn [advance tl].
    assert (Hlen1 : length b1 = length b + 1).
    { destruct Hb as (_ & _ & _ & Hlb & _).
      destruct Hb1 as (_ & _ & _ & Hlb1 & _).
      rewrite Hlb1, Hlb, length_app. cbn [List.length]. lia. }
    rewrite (IH h1 b1 (w ++ [c]) Hb1); try lia; try assumption.
    + rewrite <- app_assoc. reflexivity.
    + rewrite length_app. cbn [List.length] in *. lia.
Qed.

(** C8: on an input without the bytes [z] and [Z] (and, as in every C
    string, without a zero byte), when no allocation fails, the call returns
    a block that holds the input and the terminator and nothing else, and
    leaves no other block allocated.  The bound on the length is what "given
    sufficient memory" amounts to for 64-bit sizes. *)
Theorem literal_input_unchanged (s : list Z) :
  forallb is_literal s = true ->
  Z.of_nat (List.length s) < 2 ^ 62 ->
  haskell_demangle enough_memory s = Some (Returned (c_block s) 0).
Proof.
  intros Hlit Hlen. unfold haskell_demangle.
  change (malloc enough_memory (mkHeap 0 0) DEFAULT_BUF_SIZE)
    with (Some (fresh 20), mkHeap 1 1).
  apply (scan_literals s (mkHeap 1 1) (mkBuf 20 0 (Some (fresh 20))) []);
    try assumption; try reflexivity.
  - exists (fresh 20). repeat split.
  - cbn [capacity]. lia.
Qed.

(** The empty string and a string of plain letters. *)
Lemma literal_input_unchanged_witness :
  forallb is_literal (cstr "base_GHC.Show") = true
  /\ haskell_demangle enough_memory (cstr "")
     = Some (Returned (c_block (cstr "")) 0)
  /\ haskell_demangle enough_memory (cstr "base_GHC.Show")
     = Some (Returned (c_block (cstr "base_GHC.Show")) 0).
Proof.
  split; [reflexivity|]. split.
  - apply (literal_input_unchanged (cstr "")); [reflexivity|reflexivity].
  - apply (literal_input_unchanged (cstr "base_GHC.Show"));
      [reflexivity|reflexivity].
Defined.

(** ** The digit runs *)

Lemma wrap32_step (acc k d : Z) :
  wrap32 (wrap32 (wrap32 acc * k) + d) = wrap32 (acc * k + d).
Proof.
  unfold wrap32.
  rewrite Z.add_mod_idemp_l by discriminate.
  rewrite <- Z.add_mod_idemp_l by discriminate.
  rewrite Z.mul_mod_idemp_l by discriminate.
  rewrite Z.add_mod_idemp_l by discriminate.
  reflexivity.
Qed.

Lemma dec_loop_stop (arity : Z) (rest : list Z) :
  isdigit (peek rest) = false -> dec_loop arity rest = (arity, rest).
Proof.
  destruct rest as [|c rest]; [reflexivity|].
  cbn [peek hd dec_loop]. intros ->. reflexivity.
Qed.

Lemma dec_loop_run (ds rest : list Z) : forall acc,
  forallb isdigit ds = true -> isdigit (peek rest) = false ->
  dec_loop (wrap32 acc) (ds ++ rest)
  = (wrap32 (fold_left (fun v c => v * 10 + (c - ch "0")) ds acc), rest).
Proof.
  induction ds as [|c ds IH]; intros acc Hds Hrest.
  - apply dec_loop_stop. exact Hrest.
  - cbn [forallb] in Hds. apply andb_true_iff in Hds as [Hc Hds].
    cbn [app dec_loop fold_left]. rewrite Hc.
    unfold dec_body. rewrite wrap32_step. apply IH; assumption.
Qed.

Lemma hex_loop_stop (char_code : Z) (rest : list Z) :
  isxdigit (peek rest) = false -> hex_loop char_code rest = (char_code, rest).
Proof.
  destruct rest as [|c rest]; [reflexivity|].
  cbn [peek hd hex_loop]. intros ->. reflexivity.
Qed.

Lemma is_lower_hex_cases (c : Z) :
  is_lower_hex c = true -> 48 <= c <= 57 \/ 97 <= c <= 102.
Proof.
  unfold is_lower_hex, isdigit. change (ch "a") with 97.
  change (ch "f") with 102. intros H.
  apply orb_true_iff in H as [H|H]; apply andb_true_iff in H; lia.
Qed.

Lemma hex_body_lower (acc c : Z) :
  is_lower_hex c = true ->
  hex_body (wrap32 acc) c = wrap32 (acc * 16 + hex_digit_value c).
Proof.
  intros Hc. apply is_lower_hex_cases in Hc.
  unfold hex_body, hex_digit_value, isdigit.
  change (ch "9") with 57. change (ch "0") with 48. change (ch "a") with 97.
  destruct Hc as [Hc|Hc].
  - replace (c <=? 57) with true by lia.
    replace ((48 <=? c) && true) with true
      by (symmetry; apply andb_true_iff; split; lia).
    apply wrap32_step.
  - replace (c <=? 57) with false by lia.
    rewrite andb_false_r.
    replace (10 + c - 97) with (10 + (c - 97)) by lia.
    apply wrap32_step.
Qed.

Lemma hex_loop_run (ds rest : list Z) : forall acc,
  forallb is_lower_hex ds = true -> isxdigit (peek rest) = false ->
  hex_loop (wrap32 acc) (ds ++ rest)
  = (wrap32 (fold_left (fun v c => v * 16 + hex_digit_value c) ds acc), rest).
Proof.
  induction ds as [|c ds IH]; intros acc Hds Hrest.
  - apply hex_loop_stop. exact Hrest.
  - cbn [forallb] in Hds. apply andb_true_iff in Hds as [Hc Hds].
    cbn [app hex_loop fold_left].
    assert (Hx : isxdigit c = true).
    { unfold isxdigit. unfold is_lower_hex in Hc.
      change (ch "a") with 97 in Hc. change (ch "f") with 102 in Hc.
      rewrite Hc. reflexivity. }
    rewrite Hx, hex_body_lower by exact Hc. apply IH; assumption.
Qed.

(** A tuple escape passes the value of its decimal run, reduced modulo
    2^32, to the switch on the byte that ends the run. *)
Lemma iter_tuple alloc_ok h b (ds rest : list Z) :
  ds <> [] -> forallb isdigit ds = true -> isdigit (peek rest) = false ->
  iter alloc_ok h b (ch "Z" :: ds ++ rest)
  = tuple_escape alloc_ok h b (decimal_value ds mod 2 ^ 32) rest.
Proof.
  intros Hne Hds Hrest. destruct ds as [|d ds]; [congruence|].
  cbn [forallb] in Hds. apply andb_true_iff in Hds as [Hd Hds].
  unfold iter. cbn [app peek hd advance tl].
  change (ch "Z" =? ch "z") with false.
  change (ch "Z" =? ch "Z") with true. cbv iota. rewrite Hd.
  change (dec_body 0 d) with (wrap32 (wrap32 (wrap32 0 * 10) + (d - ch "0"))).
  rewrite wrap32_step, dec_loop_run by assumption.
  reflexivity.
Qed.

(** A numeric escape passes the value of its run of digits and lowercase
    letters, reduced modulo 2^32, to [str_buf_push_char_code]. *)
Lemma iter_numeric alloc_ok h b (d : Z) (ds rest : list Z) :
  isdigit d = true -> forallb is_lower_hex ds = true ->
  iter alloc_ok h b (ch "z" :: d :: ds ++ ch "U" :: rest)
  = match str_buf_push_char_code alloc_ok h b
            (hex_value (d :: ds) mod 2 ^ 32) with
    | Undef => Stop Undefined
    | Def (true, b1, h1) => fail h1 b1
    | Def (false, b1, h1) => Continue h1 b1 rest
    end.
Proof.
  intros Hd Hds.
  unfold iter. cbn [app peek hd advance tl].
  change (ch "z" =? ch "z") with true. cbv iota. rewrite Hd.
  replace (hex_body 0 d) with (wrap32 (0 * 16 + hex_digit_value d)).
  - rewrite hex_loop_run; [|exact Hds|reflexivity].
    cbn [peek hd advance tl]. change (ch "U" =? ch "U") with true.
    reflexivity.
  - symmetry. apply (hex_body_lower 0 d).
    unfold is_lower_hex. rewrite Hd. reflexivity.
Qed.

(** C10: the arity of a tuple escape is the value of its decimal run taken
    modulo 2^32.  In every state of the accumulator, the pass of the loop
    over a tuple escape is the switch on the ending byte run with that
    reduced value; hence two runs whose values agree modulo 2^32 are
    decoded alike, from any state and at the start of the input. *)
Theorem arity_modulo_2_32 (alloc_ok : nat -> bool) (h : heap) (b : str_buf)
        (ds ds' rest : list Z) :
  ds <> [] -> forallb isdigit ds = true ->
  ds' <> [] -> forallb isdigit ds' = true ->
  isdigit (peek rest) = false ->
  decimal_value ds mod 2 ^ 32 = decimal_value ds' mod 2 ^ 32 ->
  iter alloc_ok h b (ch "Z" :: ds ++ rest)
  = tuple_escape alloc_ok h b (decimal_value ds mod 2 ^ 32) rest
  /\ scan alloc_ok h b (ch "Z" :: ds ++ rest)
     = scan alloc_ok h b (ch "Z" :: ds' ++ rest)
  /\ haskell_demangle alloc_ok (ch "Z" :: ds ++ rest)
     = haskell_demangle alloc_ok (ch "Z" :: ds' ++ rest).
Proof.
  intros Hne Hds Hne' Hds' Hrest Hmod.
  assert (Hscan : forall h0 b0,
             scan alloc_ok h0 b0 (ch "Z" :: ds ++ rest)
             = scan alloc_ok h0 b0 (ch "Z" :: ds' ++ rest)).
  { intros h0 b0. rewrite 2 scan_step.
    rewrite 2 iter_tuple by assumption. rewrite Hmod. reflexivity. }
  split; [apply iter_tuple; assumption|].
  split; [apply Hscan|].
  unfold haskell_demangle. destruct (malloc alloc_ok _ _) as [p h0].
  apply Hscan.
Qed.

(** The run "4294967296" is decoded as the run "0": with 'T' it gives
    "()". *)
Lemma arity_modulo_2_32_witness :
  decimal_value (cstr "4294967296") = 4294967296
  /\ haskell_demangle enough_memory (cstr "Z4294967296T")
     = haskell_demangle enough_memory (cstr "Z0T")
  /\ haskell_demangle enough_memory (cstr "Z0T")
     = Some (Returned (c_block (cstr "()")) 0).
Proof.
  split; [reflexivity|]. split; [|reflexivity].
  apply (arity_modulo_2_32 enough_memory (mkHeap 0 0) (mkBuf 0 0 None)
           (cstr "4294967296") (cstr "0") (cstr "T"));
    try reflexivity; discriminate.
Defined.

(** ** Numeric escapes *)

Lemma str_buf_reserve_length alloc_ok h b amt :
  length (snd (fst (str_buf_reserve alloc_ok h b amt))) = length b.
Proof.
  unfold str_buf_reserve.
  destruct (_ >? capacity b); [|reflexivity].
  destruct (realloc _ _ _ _) as [[blk|] h1]; reflexivity.
Qed.

Lemma char_code_out_of_range alloc_ok h b (char_code : Z) :
  0x10FFFF < char_code ->
  exists b1 h1,
    str_buf_push_char_code alloc_ok h b char_code = Def (true, b1, h1)
    /\ length b1 = length b.
Proof.
  intros Hbig. unfold str_buf_push_char_code.
  pose proof (str_buf_reserve_length alloc_ok h b 4) as Hlen.
  destruct (str_buf_reserve alloc_ok h b 4) as [[err b1] h1].
  cbn [fst snd] in Hlen.
  assert (Hnone : char_code_bytes char_code = None).
  { unfold char_code_bytes.
    replace (char_code <=? 127) with false by lia.
    replace (char_code <=? 2047) with false by lia.
    replace (char_code <=? 65535) with false by lia.
    replace (char_code <=? 1114111) with false by lia.
    reflexivity. }
  exists b1, h1. rewrite Hnone. destruct err; auto.
Qed.

(** C5, amended: the value of the run is accumulated in 32 bits.  When the
    run (a decimal digit, then digits and lowercase a to f) denotes a value
    that is above 0x10FFFF after reduction modulo 2^32, and 'U' ends it, then
    [str_buf_push_char_code] reports an error without advancing [length],
    the pass of the loop over the escape fails, and so does the call when
    the escape stands at the start of the input; this holds in every state
    and whatever the allocator does. *)
Theorem code_point_out_of_range (alloc_ok : nat -> bool) (d : Z)
        (ds rest : list Z) :
  isdigit d = true -> forallb is_lower_hex ds = true ->
  0x10FFFF < hex_value (d :: ds) mod 2 ^ 32 ->
  (forall h b, exists b1 h1,
      str_buf_push_char_code alloc_ok h b (hex_value (d :: ds) mod 2 ^ 32)
      = Def (true, b1, h1)
      /\ length b1 = length b)
  /\ (forall h b, exists leaked,
         iter alloc_ok h b (ch "z" :: d :: ds ++ ch "U" :: rest)
         = Stop (Failed leaked))
  /\ (forall h b, exists leaked,
         scan alloc_ok h b (ch "z" :: d :: ds ++ ch "U" :: rest)
         = Some (Failed leaked))
  /\ exists leaked,
       haskell_demangle alloc_ok (ch "z" :: d :: ds ++ ch "U" :: rest)
       = Some (Failed leaked).
Proof.
  intros Hd Hds Hbig.
  assert (Hiter : forall h b, exists leaked,
             iter alloc_ok h b (ch "z" :: d :: ds ++ ch "U" :: rest)
             = Stop (Failed leaked)).
  { intros h b. rewrite iter_numeric by assumption.
    destruct (char_code_out_of_range alloc_ok h b _ Hbig)
      as (b1 & h1 & Hpush & _).
    rewrite Hpush. eexists. reflexivity. }
  assert (Hscan : forall h b, exists leaked,
             scan alloc_ok h b (ch "z" :: d :: ds ++ ch "U" :: rest)
             = Some (Failed leaked)).
  { intros h b. destruct (Hiter h b) as (k & Hk).
    exists k. rewrite scan_step, Hk. reflexivity. }
  split; [intros h b; apply char_code_out_of_range; exact Hbig|].
  split; [exact Hiter|]. split; [exact Hscan|].
  unfold haskell_demangle. destruct (malloc alloc_ok _ _) as [p h0].
  apply Hscan.
Qed.

(** The code point 0x110000, and a run of more than 32 bits. *)
Lemma code_point_out_of_range_witness :
  hex_value (cstr "110000") mod 2 ^ 32 = 0x110000
  /\ (exists leaked,
        haskell_demangle enough_memory (cstr "z110000U")
        = Some (Failed leaked))
  /\ (exists leaked,
        haskell_demangle (fails_at 0) (cstr "z1ffffffffUabc")
        = Some (Failed leaked)).
Proof.
  split; [reflexivity|]. split.
  - apply (code_point_out_of_range enough_memory (ch "1") (cstr "10000") []);
      reflexivity.
  - apply (code_point_out_of_range (fails_at 0) (ch "1") (cstr "ffffffff")
             (cstr "abc")); reflexivity.
Defined.

(** ** Tuple escapes *)

Lemma reserve_write_holds alloc_ok h b (w : list Z) (amt : Z) (cs l : list Z) :
  holds b w -> alloc_ok (nalloc h) = true ->
  Z.of_nat (List.length cs) <= amt ->
  length b + amt < 2 ^ SIZE_BITS ->
  capacity b + capacity b / 2 < 2 ^ SIZE_BITS ->
  exists h' b',
    reserve_write alloc_ok h b amt cs l = Continue h' b' l
    /\ holds b' (w ++ cs).
Proof.
  intros Hb Hok Hcs Hlen Hcap.
  destruct (reserve_holds alloc_ok h b w amt Hb Hok)
    as (b1 & h1 & Hres & Hb1 & Hroom & Hcap1 & _); [lia..|].
  assert (Hl1 : length b1 = length b).
  { destruct Hb as (_ & _ & _ & Hl & _).
    destruct Hb1 as (_ & _ & _ & Hl1 & _). congruence. }
  destruct (put_all_holds cs b1 w Hb1) as (b2 & Hput & Hb2 & _); [lia..|].
  unfold reserve_write. rewrite Hres, Hput.
  exists h1, b2. split; [reflexivity|exact Hb2].
Qed.

Lemma commas_length (arity : Z) :
  1 <= arity -> Z.of_nat (List.length (commas arity)) = arity - 1.
Proof. intros Ha. unfold commas. rewrite repeat_length. lia. Qed.

Lemma capacity_grows_in_range (b : str_buf) (w : list Z) :
  holds b w -> capacity b < 2 ^ 62 ->
  capacity b + capacity b / 2 < 2 ^ SIZE_BITS
  /\ length b + 2 ^ 32 + 2 < 2 ^ SIZE_BITS.
Proof.
  intros Hb Hcap. apply holds_within in Hb.
  assert (capacity b / 2 <= capacity b)
    by (apply Z.div_le_upper_bound; lia).
  rewrite two_pow_size. lia.
Qed.

(** [str_buf_push_str] on an accumulator that holds [w]: the bytes of [str]
    are at the start of the block afterwards, and [length] has grown by
    their number. *)
Lemma push_str_at_start alloc_ok h b (w str : list Z) :
  holds b w -> alloc_ok (nalloc h) = true ->
  capacity b < 2 ^ 62 -> Z.of_nat (List.length str) < 2 ^ 32 ->
  exists b' h' blk,
    str_buf_push_str alloc_ok h b str = Def (false, b', h')
    /\ data b' = Some blk
    /\ Z.of_nat (List.length blk) = capacity b'
    /\ firstn (List.length str) blk = map (fun c => Some c) str
    /\ length b' = Z.of_nat (List.length w + List.length str).
Proof.
  intros Hb Hok Hcap Hstr.
  destruct (capacity_grows_in_range b w Hb Hcap) as [Hgrow Hlen].
  pose proof (holds_within b w Hb) as Hin.
  destruct (reserve_holds alloc_ok h b w (Z.of_nat (List.length str)) Hb Hok)
    as (b1 & h1 & Hres & Hb1 & Hroom & Hcap1 & _); [lia..|].
  unfold str_buf_push_str. rewrite Hres.
  assert (Hl : length b = Z.of_nat (List.length w))
    by (destruct Hb as (_ & _ & _ & Hl & _); exact Hl).
  destruct Hb1 as (blk1 & Hd1 & Hsz1 & Hl1 & Hw1).
  unfold memcpy. rewrite Hd1.
  replace (List.length str <=? List.length blk1)%nat with true
    by (symmetry; apply Nat.leb_le; lia).
  eexists; eexists; eexists. split; [reflexivity|].
  cbn [data capacity length]. split; [reflexivity|].
  split; [|split].
  - rewrite length_app, length_map, length_skipn. lia.
  - rewrite <- (length_map (fun c => Some c) str) at 1.
    rewrite <- (Nat.add_0_r (List.length (map _ str))).
    rewrite firstn_app_2, firstn_0, app_nil_r. reflexivity.
  - rewrite wrap_size_small by lia. lia.
Qed.

(** C6, amended.  The arity is the value of the decimal run modulo 2^32
    (C10).  In a state in which the accumulator holds [w] and the allocation
    of this pass, if there is one, succeeds: arity 0 appends "()"; arity 1
    fails in every state; an arity from 2 to 2^32 - 2 appends '(' then
    arity - 1 commas then ')'.  In each case that continues the cursor
    stands behind the 'T'. *)
Theorem ordinary_tuple (alloc_ok : nat -> bool) (h : heap) (b : str_buf)
        (w ds rest : list Z) :
  holds b w -> capacity b < 2 ^ 62 -> alloc_ok (nalloc h) = true ->
  ds <> [] -> forallb isdigit ds = true ->
  (decimal_value ds mod 2 ^ 32 = 0 ->
   exists h' b',
     iter alloc_ok h b (ch "Z" :: ds ++ ch "T" :: rest) = Continue h' b' rest
     /\ holds b' (w ++ cstr "()"))
  /\ (decimal_value ds mod 2 ^ 32 = 1 ->
      exists leaked,
        iter alloc_ok h b (ch "Z" :: ds ++ ch "T" :: rest)
        = Stop (Failed leaked))
  /\ (2 <= decimal_value ds mod 2 ^ 32 <= 2 ^ 32 - 2 ->
      exists h' b',
        iter alloc_ok h b (ch "Z" :: ds ++ ch "T" :: rest)
        = Continue h' b' rest
        /\ holds b'
             (w ++ ch "("
                :: repeat (ch ",") (Z.to_nat (decimal_value ds mod 2 ^ 32 - 1))
                ++ [ch ")"]))
  /\ decode "Z0T" = Some (Returned (c_block (cstr "()")) 0)
  /\ decode "Z1T" = Some (Failed 0)
  /\ decode "Z2T" = Some (Returned (c_block (cstr "(,)")) 0)
  /\ decode "Z3T" = Some (Returned (c_block (cstr "(,,)")) 0).
Proof.
  intros Hb Hcap Hok Hne Hds.
  destruct (capacity_grows_in_range b w Hb Hcap) as [Hgrow Hlen].
  rewrite iter_tuple by (assumption || reflexivity).
  set (arity := decimal_value ds mod 2 ^ 32).
  unfold tuple_escape. cbn [peek hd advance tl].
  change (ch "T" =? ch "T") with true. cbv iota.
  split; [|split; [|split]].
  - intros ->. cbn [Z.eqb].
    apply reserve_write_holds; try assumption; [reflexivity|lia].
  - intros ->. cbn [Z.eqb]. unfold fail. eexists. reflexivity.
  - intros Ha.
    replace (arity =? 0) with false by lia.
    replace (arity =? 1) with false by lia.
    unfold wrap32. rewrite Z.mod_small by lia.
    apply reserve_write_holds; try assumption.
    + cbn [List.length]. rewrite length_app. cbn [List.length].
      pose proof (commas_length arity ltac:(lia)) as Hc.
      unfold commas in Hc. lia.
    + lia.
  - repeat split; reflexivity.
Qed.

(** After "a", the escape "Z3T" appends "(,,)". *)
Lemma ordinary_tuple_witness :
  holds buf_a (cstr "a")
  /\ decimal_value (cstr "3") mod 2 ^ 32 = 3
  /\ exists h' b',
       iter enough_memory (mkHeap 1 1) buf_a (cstr "Z3Tx")
       = Continue h' b' (cstr "x")
       /\ holds b' (cstr "a(,,)").
Proof.
  assert (Ha : holds buf_a (cstr "a")).
  { exists (Some (ch "a") :: repeat None 19). repeat split. }
  split; [exact Ha|]. split; [reflexivity|].
  refine (proj1 (proj2 (proj2
            (ordinary_tuple enough_memory (mkHeap 1 1) buf_a (cstr "a")
               (cstr "3") (cstr "x") Ha _ _ _ _))) _);
    try reflexivity; try discriminate.
  split; discriminate.
Defined.

(** C7, amended.  The arity is the value of the decimal run modulo 2^32
    (C10).  Arity 0 fails in every state.  In a state in which the
    accumulator holds [w] and the allocation of this pass, if there is one,
    succeeds: arity 1 gives "(# #)" when nothing was written before; an
    arity from 2 to 2^32 - 4 appends "(#" then arity - 1 commas then "#)".
    In each case that continues the cursor stands behind the 'H'. *)
Theorem unboxed_tuple (alloc_ok : nat -> bool) (h : heap) (b : str_buf)
        (w ds rest : list Z) :
  holds b w -> capacity b < 2 ^ 62 -> alloc_ok (nalloc h) = true ->
  ds <> [] -> forallb isdigit ds = true ->
  (decimal_value ds mod 2 ^ 32 = 0 ->
   exists leaked,
     iter alloc_ok h b (ch "Z" :: ds ++ ch "H" :: rest)
     = Stop (Failed leaked))
  /\ (decimal_value ds mod 2 ^ 32 = 1 -> w = [] ->
      exists h' b',
        iter alloc_ok h b (ch "Z" :: ds ++ ch "H" :: rest)
        = Continue h' b' rest
        /\ holds b' (cstr "(# #)"))
  /\ (2 <= decimal_value ds mod 2 ^ 32 <= 2 ^ 32 - 4 ->
      exists h' b',
        iter alloc_ok h b (ch "Z" :: ds ++ ch "H" :: rest)
        = Continue h' b' rest
        /\ holds b'
             (w ++ ch "(" :: ch "#"
                :: repeat (ch ",") (Z.to_nat (decimal_value ds mod 2 ^ 32 - 1))
                ++ [ch "#"; ch ")"]))
  /\ decode "Z0H" = Some (Failed 0)
  /\ decode "Z1H" = Some (Returned (c_block (cstr "(# #)")) 0)
  /\ decode "Z3H" = Some (Returned (c_block (cstr "(#,,#)")) 0).
Proof.
  intros Hb Hcap Hok Hne Hds.
  destruct (capacity_grows_in_range b w Hb Hcap) as [Hgrow Hlen].
  rewrite iter_tuple by (assumption || reflexivity).
  set (arity := decimal_value ds mod 2 ^ 32).
  unfold tuple_escape. cbn [peek hd advance tl].
  change (ch "H" =? ch "T") with false.
  change (ch "H" =? ch "H") with true. cbv iota.
  split; [|split; [|split]].
  - intros ->. cbn [Z.eqb]. unfold fail. eexists. reflexivity.
  - intros -> ->. cbn [Z.eqb].
    destruct (push_str_at_start alloc_ok h b [] (cstr "(# #)") Hb Hok Hcap)
      as (b' & h' & blk & Hpush & Hd & Hsz & Hfst & Hl); [reflexivity|].
    rewrite Hpush. exists h', b'. split; [reflexivity|].
    exists blk. auto.
  - intros Ha.
    replace (arity =? 0) with false by lia.
    replace (arity =? 1) with false by lia.
    unfold wrap32. rewrite Z.mod_small by lia.
    apply reserve_write_holds; try assumption.
    + cbn [List.length]. rewrite length_app. cbn [List.length].
      pose proof (commas_length arity ltac:(lia)) as Hc.
      unfold commas in Hc. lia.
    + lia.
  - repeat split; reflexivity.
Qed.

(** After "a", the escape "Z3H" appends "(#,,#)". *)
Lemma unboxed_tuple_witness :
  holds buf_a (cstr "a")
  /\ decimal_value (cstr "3") mod 2 ^ 32 = 3
  /\ exists h' b',
       iter enough_memory (mkHeap 1 1) buf_a (cstr "Z3Hx")
       = Continue h' b' (cstr "x")
       /\ holds b' (cstr "a(#,,#)").
Proof.
  assert (Ha : holds buf_a (cstr "a")).
  { exists (Some (ch "a") :: repeat None 19). repeat split. }
  split; [exact Ha|]. split; [reflexivity|].
  refine (proj1 (proj2 (proj2
            (unboxed_tuple enough_memory (mkHeap 1 1) buf_a (cstr "a")
               (cstr "3") (cstr "x") Ha _ _ _ _))) _);
    try reflexivity; try discriminate.
  split; discriminate.
Defined.

(** ** The reservation of the largest arities *)

(** [RESERVE(arity + 1)] and [RESERVE(arity + 3)] add in 32 bits.  When the
    sum wraps to a small number nothing is reserved, and the writes that
    follow run over the end of the block. *)
Lemma reserve_write_overflow alloc_ok h b (w : list Z) (amt : Z) (cs l : list Z) :
  holds b w -> capacity b < 2 ^ SIZE_BITS ->
  0 <= amt -> length b + amt <= capacity b ->
  capacity b < length b + Z.of_nat (List.length cs) ->
  reserve_write alloc_ok h b amt cs l = Stop Undefined.
Proof.
  intros Hb Hcap Hamt Hfits Hover.
  pose proof (holds_within b w Hb) as Hin.
  unfold reserve_write, str_buf_reserve.
  rewrite (wrap_size_small (length b + amt)) by lia.
  replace (length b + amt >? capacity b) with false by lia.
  rewrite (put_all_overflow cs b w Hb Hover Hcap). reflexivity.
Qed.

Lemma holds_initial : holds (mkBuf 20 0 (Some (fresh 20))) [].
Proof. exists (fresh 20). repeat split. Qed.

Lemma tuple_escape_T_wraps alloc_ok h b (w : list Z) (arity : Z)
      (rest : list Z) :
  holds b w -> capacity b < 2 ^ 32 -> arity = 2 ^ 32 - 1 ->
  tuple_escape alloc_ok h b arity (ch "T" :: rest) = Stop Undefined.
Proof.
  intros Hb Hcap Ha.
  pose proof (holds_within b w Hb) as Hin.
  unfold tuple_escape. cbn [peek hd advance tl].
  change (ch "T" =? ch "T") with true. cbv iota.
  replace (arity =? 0) with false by lia.
  replace (arity =? 1) with false by lia.
  replace (wrap32 (arity + 1)) with 0 by (rewrite Ha; reflexivity).
  pose proof (commas_length arity ltac:(lia)) as Hc.
  apply (reserve_write_overflow alloc_ok h b w); try assumption; try lia.
  - rewrite two_pow_size. lia.
  - cbn [List.length]. rewrite length_app. cbn [List.length]. lia.
Qed.

Lemma tuple_escape_H_wraps alloc_ok h b (w : list Z) (arity : Z)
      (rest : list Z) :
  holds b w -> capacity b < 2 ^ 32 -> arity = 2 ^ 32 - 3 ->
  tuple_escape alloc_ok h b arity (ch "H" :: rest) = Stop Undefined.
Proof.
  intros Hb Hcap Ha.
  pose proof (holds_within b w Hb) as Hin.
  unfold tuple_escape. cbn [peek hd advance tl].
  change (ch "H" =? ch "T") with false.
  change (ch "H" =? ch "H") with true. cbv iota.
  replace (arity =? 0) with false by lia.
  replace (arity =? 1) with false by lia.
  replace (wrap32 (arity + 3)) with 0 by (rewrite Ha; reflexivity).
  pose proof (commas_length arity ltac:(lia)) as Hc.
  apply (reserve_write_overflow alloc_ok h b w); try assumption; try lia.
  - rewrite two_pow_size. lia.
  - cbn [List.length]. rewrite length_app. cbn [List.length]. lia.
Qed.

(** The largest arity of an ordinary tuple: nothing is reserved and the
    writes leave the block of 20 bytes. *)
Lemma decode_largest_ordinary_tuple :
  decode "Z4294967295T" = Some Undefined.
Proof.
  unfold decode, haskell_demangle.
  change (malloc enough_memory (mkHeap 0 0) DEFAULT_BUF_SIZE)
    with (Some (fresh 20), mkHeap 1 1).
  cbv beta iota. rewrite scan_step.
  change (cstr "Z4294967295T")
    with (ch "Z" :: cstr "4294967295" ++ [ch "T"]).
  rewrite iter_tuple by (discriminate || reflexivity).
  rewrite (tuple_escape_T_wraps enough_memory (mkHeap 1 1)
             (mkBuf DEFAULT_BUF_SIZE 0 (Some (fresh 20))) []
             (decimal_value (cstr "4294967295") mod 2 ^ 32) []
             holds_initial); reflexivity.
Qed.

Lemma decode_largest_unboxed_tuple :
  decode "Z4294967293H" = Some Undefined.
Proof.
  unfold decode, haskell_demangle.
  change (malloc enough_memory (mkHeap 0 0) DEFAULT_BUF_SIZE)
    with (Some (fresh 20), mkHeap 1 1).
  cbv beta iota. rewrite scan_step.
  change (cstr "Z4294967293H")
    with (ch "Z" :: cstr "4294967293" ++ [ch "H"]).
  rewrite iter_tuple by (discriminate || reflexivity).
  rewrite (tuple_escape_H_wraps enough_memory (mkHeap 1 1)
             (mkBuf DEFAULT_BUF_SIZE 0 (Some (fresh 20))) []
             (decimal_value (cstr "4294967293") mod 2 ^ 32) []
             holds_initial); reflexivity.
Qed.

(** ** Contracts of the accumulator *)

Lemma reserve_policy alloc_ok h b (w : list Z) (amt : Z) :
  holds b w -> alloc_ok (nalloc h) = true ->
  0 <= amt -> length b + amt < 2 ^ SIZE_BITS ->
  capacity b + capacity b / 2 < 2 ^ SIZE_BITS ->
  exists b' h',
    str_buf_reserve alloc_ok h b amt = (false, b', h')
    /\ holds b' w
    /\ live h' = live h
    /\ (length b + amt <= capacity b -> b' = b /\ h' = h)
    /\ (capacity b < length b + amt ->
        capacity b' = Z.max (length b + amt) (capacity b + capacity b / 2)
        /\ nalloc h' = S (nalloc h)).
Proof.
  intros Hb Hok Hamt Hlen Hcap.
  pose proof (holds_within b w Hb) as Hin.
  assert (Hhalf : 0 <= capacity b / 2) by (apply Z.div_pos; lia).
  unfold str_buf_reserve.
  rewrite (wrap_size_small (length b + amt)) by lia.
  rewrite (wrap_size_small (capacity b + capacity b / 2)) by lia.
  destruct (Z.gtb_spec (length b + amt) (capacity b)) as [Hgrow|Hfits].
  - destruct Hb as (blk & Hd & Hrest). rewrite Hd.
    rewrite realloc_block by exact Hok.
    assert (Hb : holds b w) by (exists blk; auto).
    destruct (Z.gtb_spec (length b + amt) (capacity b + capacity b / 2)).
    + eexists; eexists. split; [reflexivity|].
      split; [apply holds_resize; [exact Hd|exact Hb|lia]|].
      cbn [capacity live nalloc]. repeat split; lia.
    + eexists; eexists. split; [reflexivity|].
      split; [apply holds_resize; [exact Hd|exact Hb|lia]|].
      cbn [capacity live nalloc]. repeat split; lia.
  - exists b, h. repeat split; try assumption; lia.
Qed.

(** X1: [str_buf_push] on an accumulator that holds [w], with a capacity of
    at least two and a successful allocation: it reports no error and
    appends the byte; with room left it neither allocates nor changes the
    capacity, and when the accumulator is full the capacity grows by its
    half in one call of [realloc]; no block is gained or lost. *)
Theorem str_buf_push_contract (alloc_ok : nat -> bool) (h : heap)
        (b : str_buf) (w : list Z) (c : Z) :
  holds b w -> alloc_ok (nalloc h) = true ->
  2 <= capacity b -> capacity b + capacity b / 2 < 2 ^ SIZE_BITS ->
  exists b' h',
    str_buf_push alloc_ok h b c = Def (false, b', h')
    /\ holds b' (w ++ [c])
    /\ live h' = live h
    /\ (length b < capacity b -> capacity b' = capacity b /\ h' = h)
    /\ (length b = capacity b ->
        capacity b' = capacity b + capacity b / 2
        /\ nalloc h' = S (nalloc h)).
Proof.
  intros Hb Hok Htwo Hcap.
  pose proof (holds_within b w Hb) as Hin.
  assert (Hhalf : 1 <= capacity b / 2)
    by (apply Z.div_le_lower_bound; lia).
  unfold str_buf_push.
  destruct (Z.eqb_spec (length b) (capacity b)) as [Hfull|Hroom].
  - rewrite (wrap_size_small (capacity b + capacity b / 2)) by lia.
    destruct Hb as (blk & Hd & Hrest). rewrite Hd.
    rewrite realloc_block by exact Hok.
    assert (Hb : holds b w) by (exists blk; auto).
    pose proof (holds_resize b w blk (capacity b + capacity b / 2) Hd Hb)
      as Hb1.
    destruct (put_holds _ w c (Hb1 ltac:(lia))) as (b2 & Hput & Hb2 & Hc2);
      cbn [capacity length]; [lia..|].
    rewrite Hput. exists b2; eexists. split; [reflexivity|].
    split; [exact Hb2|]. cbn [capacity live nalloc] in *.
    repeat split; lia.
  - destruct (put_holds b w c Hb) as (b2 & Hput & Hb2 & Hc2); [lia..|].
    rewrite Hput. exists b2, h. split; [reflexivity|].
    split; [exact Hb2|]. repeat split; lia.
Qed.

(** A push on the accumulator that holds "a", with room left. *)
Lemma str_buf_push_contract_witness :
  holds buf_a (cstr "a")
  /\ exists b' h',
       str_buf_push enough_memory (mkHeap 1 1) buf_a (ch "b")
       = Def (false, b', h')
       /\ holds b' (cstr "ab")
       /\ capacity b' = 20.
Proof.
  assert (Ha : holds buf_a (cstr "a")).
  { exists (Some (ch "a") :: repeat None 19). repeat split. }
  split; [exact Ha|].
  destruct (str_buf_push_contract enough_memory (mkHeap 1 1) buf_a (cstr "a")
              (ch "b") Ha)
    as (b' & h' & Hpush & Hb' & _ & Hroom & _);
    [reflexivity|discriminate|reflexivity|].
  exists b', h'. split; [exact Hpush|]. split; [exact Hb'|].
  apply Hroom. reflexivity.
Defined.

(** X2: with a capacity of one the growth of [str_buf_push] is
    1 + 1 / 2 = 1: on a full accumulator of capacity one the block is
    reallocated with the same size and the byte is written behind its
    end. *)
Theorem str_buf_push_capacity_one (alloc_ok : nat -> bool) (h : heap)
        (b : str_buf) (w : list Z) (c : Z) :
  holds b w -> capacity b = 1 -> length b = 1 ->
  alloc_ok (nalloc h) = true ->
  str_buf_push alloc_ok h b c = Undef.
Proof.
  intros (blk & Hd & Hsz & Hlen & Hw) Hcap Hfull Hok.
  unfold str_buf_push. rewrite Hfull, Hcap, Hd. cbn [Z.eqb Pos.eqb].
  rewrite realloc_block by exact Hok.
  unfold put. cbn [data length].
  rewrite length_resize. reflexivity.
Qed.

Lemma str_buf_push_capacity_one_witness :
  str_buf_push enough_memory (mkHeap 1 1)
               (mkBuf 1 1 (Some [Some (ch "a")])) (ch "b")
  = Undef.
Proof.
  apply (str_buf_push_capacity_one enough_memory (mkHeap 1 1)
           (mkBuf 1 1 (Some [Some (ch "a")])) [ch "a"] (ch "b"));
    try reflexivity.
  exists [Some (ch "a")]. repeat split.
Defined.

(** X3: [str_buf_reserve] on an accumulator that holds [w], when the
    allocation succeeds and no size wraps: the text and [length] stay, there
    is room for [amt] more bytes afterwards, nothing is allocated when the
    room was there already, and otherwise the capacity becomes the larger of
    the requested length and one and a half times the old capacity, in one
    call of [realloc].  Reserving the same amount again changes nothing. *)
Theorem str_buf_reserve_contract (alloc_ok : nat -> bool) (h : heap)
        (b : str_buf) (w : list Z) (amt : Z) :
  holds b w -> alloc_ok (nalloc h) = true ->
  0 <= amt -> length b + amt < 2 ^ SIZE_BITS ->
  capacity b + capacity b / 2 < 2 ^ SIZE_BITS ->
  exists b' h',
    str_buf_reserve alloc_ok h b amt = (false, b', h')
    /\ holds b' w
    /\ length b' = length b
    /\ length b + amt <= capacity b'
    /\ live h' = live h
    /\ (length b + amt <= capacity b -> b' = b /\ h' = h)
    /\ (capacity b < length b + amt ->
        capacity b' = Z.max (length b + amt) (capacity b + capacity b / 2)
        /\ nalloc h' = S (nalloc h))
    /\ str_buf_reserve alloc_ok h' b' amt = (false, b', h').
Proof.
  intros Hb Hok Hamt Hlen Hcap.
  destruct (reserve_policy alloc_ok h b w amt Hb Hok Hamt Hlen Hcap)
    as (b' & h' & Hres & Hb' & Hlive & Hfits & Hgrow).
  assert (Hl : length b' = length b).
  { destruct Hb as (_ & _ & _ & Hl & _).
    destruct Hb' as (_ & _ & _ & Hl' & _). congruence. }
  assert (Hroom : length b + amt <= capacity b').
  { destruct (Z.le_gt_cases (length b + amt) (capacity b)) as [Hle|Hgt].
    - destruct (Hfits Hle) as [-> _]. exact Hle.
    - destruct (Hgrow Hgt) as [-> _]. lia. }
  exists b', h'. repeat split; try assumption; try (apply Hfits; assumption);
    try (apply Hgrow; assumption).
  unfold str_buf_reserve. rewrite Hl.
  rewrite (wrap_size_small (length b + amt))
    by (apply holds_within in Hb; lia).
  replace (length b + amt >? capacity b') with false by lia.
  reflexivity.
Qed.

(** Room for thirty more bytes behind "a" is not there and makes the
    capacity 31. *)
Lemma str_buf_reserve_contract_witness :
  holds buf_a (cstr "a")
  /\ exists b' h',
       str_buf_reserve enough_memory (mkHeap 1 1) buf_a 30 = (false, b', h')
       /\ holds b' (cstr "a")
       /\ capacity b' = 31.
Proof.
  assert (Ha : holds buf_a (cstr "a")).
  { exists (Some (ch "a") :: repeat None 19). repeat split. }
  split; [exact Ha|].
  destruct (str_buf_reserve_contract enough_memory (mkHeap 1 1) buf_a
              (cstr "a") 30 Ha)
    as (b' & h' & Hres & Hb' & _ & _ & _ & _ & Hgrow & _);
    [reflexivity|discriminate|reflexivity|reflexivity|].
  exists b', h'. split; [exact Hres|]. split; [exact Hb'|].
  apply Hgrow. reflexivity.
Defined.

(** X4: [str_buf_reserve] reports an error exactly when the accumulator
    has to grow and the allocation fails.  In that case [length] and
    [capacity] are as before, the data pointer is null, and the block is
    still allocated. *)
Theorem str_buf_reserve_error (alloc_ok : nat -> bool) (h : heap)
        (b : str_buf) (w : list Z) (amt : Z) :
  holds b w -> 0 <= amt -> length b + amt < 2 ^ SIZE_BITS ->
  (fst (fst (str_buf_reserve alloc_ok h b amt)) = true
   <-> capacity b < length b + amt /\ alloc_ok (nalloc h) = false)
  /\ (fst (fst (str_buf_reserve alloc_ok h b amt)) = true ->
      str_buf_reserve alloc_ok h b amt
      = (true, mkBuf (capacity b) (length b) None,
         mkHeap (live h) (S (nalloc h)))).
Proof.
  intros Hb Hamt Hlen.
  pose proof (holds_within b w Hb) as Hin.
  destruct Hb as (blk & Hd & _).
  unfold str_buf_reserve.
  rewrite (wrap_size_small (length b + amt)) by lia.
  destruct (Z.gtb_spec (length b + amt) (capacity b)) as [Hgrow|Hfits].
  - rewrite Hd. unfold realloc.
    destruct (alloc_ok (nalloc h)); cbn [fst].
    + split; [split; [discriminate|intros [_ H]; discriminate]|discriminate].
    + split; [split; [intros _; split; [lia|reflexivity]|reflexivity]|].
      reflexivity.
  - cbn [fst]. split; [split; [discriminate|intros [H _]; lia]|discriminate].
Qed.

Lemma str_buf_reserve_error_witness :
  str_buf_reserve (fails_at 1) (mkHeap 1 1) buf_a 30
  = (true, mkBuf 20 1 None, mkHeap 1 2).
Proof.
  apply (str_buf_reserve_error (fails_at 1) (mkHeap 1 1) buf_a (cstr "a") 30);
    try reflexivity; try discriminate.
  exists (Some (ch "a") :: repeat None 19). repeat split.
Defined.

(** ** The encoding of code points *)

(** A bit field of a code point under a marker that lies above it. *)
Lemma marked_field (c s n k : Z) :
  0 <= s -> 0 <= n -> Z.land (Z.ones n) k = 0 ->
  0 <= k -> k + 2 ^ n <= 256 ->
  to_char (Z.lor (Z.land (Z.shiftr c s) (Z.ones n)) k)
  = (c / 2 ^ s) mod 2 ^ n + k.
Proof.
  intros Hs Hn Hdisj Hk Hfit.
  assert (Hland : Z.land (Z.land (Z.shiftr c s) (Z.ones n)) k = 0)
    by (rewrite <- Z.land_assoc, Hdisj; apply Z.land_0_r).
  rewrite <- (Z.lxor_lor _ _ Hland), <- (Z.add_nocarry_lxor _ _ Hland).
  rewrite Z.land_ones, Z.shiftr_div_pow2 by assumption.
  unfold to_char. apply Z.mod_small.
  pose proof (Z.mod_pos_bound (c / 2 ^ s) (2 ^ n)
                ltac:(apply Z.pow_pos_nonneg; lia)).
  lia.
Qed.

Ltac utf8_condition :=
  match goal with
  | |- (if ?cond then _ else _) = _ =>
      replace cond with true
        by (symmetry; unfold is_continuation;
            repeat (apply andb_true_iff; split);
            (apply Z.leb_le || apply Z.ltb_lt);
            Z.div_mod_to_equations; lia)
  end.

(** X5: for every code point up to 0x10FFFF the bytes that
    [str_buf_push_char_code] writes are its UTF-8 encoding: one byte up to
    0x7F, two up to 0x7FF, three up to 0xFFFF and four above, each a byte
    value, and decoding them by the rules of UTF-8 gives the code point
    back.  (Surrogate code points are encoded like any other.) *)
Theorem char_code_bytes_utf8 (c : Z) :
  0 <= c <= 0x10FFFF ->
  exists bs,
    char_code_bytes c = Some bs
    /\ utf8_decode bs = Some c
    /\ Forall (fun b => 0 <= b < 256) bs
    /\ List.length bs
       = if c <=? 0x7F then 1%nat
         else if c <=? 0x7FF then 2%nat
         else if c <=? 0xFFFF then 3%nat else 4%nat.
Proof.
  intros Hc. unfold char_code_bytes.
  pose proof (fun s n k => marked_field c s n k) as F.
  pose proof (F 6 5 0xC0 ltac:(lia) ltac:(lia) eq_refl ltac:(lia) ltac:(lia))
    as F2a.
  pose proof (F 0 6 0x80 ltac:(lia) ltac:(lia) eq_refl ltac:(lia) ltac:(lia))
    as F0.
  pose proof (F 6 6 0x80 ltac:(lia) ltac:(lia) eq_refl ltac:(lia) ltac:(lia))
    as F6.
  pose proof (F 12 6 0x80 ltac:(lia) ltac:(lia) eq_refl ltac:(lia) ltac:(lia))
    as F12.
  pose proof (F 12 4 0xE0 ltac:(lia) ltac:(lia) eq_refl ltac:(lia) ltac:(lia))
    as F3a.
  pose proof (F 18 3 0xF0 ltac:(lia) ltac:(lia) eq_refl ltac:(lia) ltac:(lia))
    as F4a.
  clear F.
  change (Z.ones 5) with 31 in F2a. change (Z.ones 6) with 63 in F0, F6, F12.
  change (Z.ones 4) with 15 in F3a. change (Z.ones 3) with 7 in F4a.
  change (2 ^ 0) with 1 in *. change (2 ^ 3) with 8 in *.
  change (2 ^ 4) with 16 in *. change (2 ^ 5) with 32 in *.
  change (2 ^ 6) with 64 in *. change (2 ^ 12) with 4096 in *.
  change (2 ^ 18) with 262144 in *.
  destruct (Z.leb_spec c 0x7F) as [H1|H1].
  { exists [c]. unfold to_char. rewrite Z.mod_small by lia.
    split; [reflexivity|]. split.
    - unfold utf8_decode. utf8_condition. reflexivity.
    - split; [|reflexivity]. repeat constructor; lia. }
  destruct (Z.leb_spec c 0x7FF) as [H2|H2].
  { rewrite F2a, F0. eexists. split; [reflexivity|]. split.
    - unfold utf8_decode. utf8_condition.
      f_equal. Z.div_mod_to_equations. lia.
    - split; [|reflexivity].
      repeat constructor; Z.div_mod_to_equations; lia. }
  destruct (Z.leb_spec c 0xFFFF) as [H3|H3].
  { rewrite F3a, F6, F0. eexists. split; [reflexivity|]. split.
    - unfold utf8_decode. utf8_condition.
      f_equal. Z.div_mod_to_equations. lia.
    - split; [|reflexivity].
      repeat constructor; Z.div_mod_to_equations; lia. }
  replace (c <=? 0x10FFFF) with true by lia.
  rewrite F4a, F12, F6, F0. eexists. split; [reflexivity|]. split.
  - unfold utf8_decode. utf8_condition.
    f_equal. Z.div_mod_to_equations. lia.
  - split; [|reflexivity].
    repeat constructor; Z.div_mod_to_equations; lia.
Qed.

(** The euro sign, U+20AC, is encoded in the three bytes E2 82 AC. *)
Lemma char_code_bytes_utf8_witness :
  exists bs,
    char_code_bytes 0x20AC = Some bs
    /\ utf8_decode bs = Some 0x20AC
    /\ Forall (fun b => 0 <= b < 256) bs
    /\ List.length bs = 3%nat.
Proof. apply (char_code_bytes_utf8 0x20AC). split; discriminate. Defined.

(** ** The heap at the end of a call *)

Lemma wrap_size_range (x : Z) : 0 <= wrap_size x < 2 ^ SIZE_BITS.
Proof. unfold wrap_size. apply Z.mod_pos_bound. reflexivity. Qed.

Lemma realloc_owns alloc_ok h b (n : Z) :
  owns h b -> 0 <= n < 2 ^ SIZE_BITS ->
  match realloc alloc_ok h (data b) n with
  | (Some blk, h') =>
      live h' = 1%nat /\ Z.of_nat (List.length blk) = n
  | (None, h') => (live h' <= 1)%nat /\ exists k, alloc_ok k = false
  end.
Proof.
  unfold owns, realloc, malloc. intros Ho Hn.
  destruct (data b) as [blk|].
  - destruct (alloc_ok (nalloc h)) eqn:Hok; cbn [live].
    + rewrite length_resize. lia.
    + split; [lia|]. exists (nalloc h). exact Hok.
  - destruct (alloc_ok (nalloc h)) eqn:Hok; cbn [live].
    + unfold fresh. rewrite repeat_length. lia.
    + split; [lia|]. exists (nalloc h). exact Hok.
Qed.

(** The effect of a write through [buf->data[buf->length++]]. *)
Lemma put_shape (b b' : str_buf) (c : Z) :
  put b c = Def b' ->
  exists blk n,
    data b = Some blk /\ length b = Z.of_nat n
    /\ (n < List.length blk)%nat
    /\ b' = mkBuf (capacity b) (wrap_size (length b + 1))
                  (Some (store blk (Z.of_nat n) (Some c))).
Proof.
  unfold put. destruct (data b) as [blk|]; [|discriminate].
  destruct (_ && _) eqn:Hin; [|discriminate].
  apply andb_true_iff in Hin as [H0 Hlt].
  intros [= <-]. exists blk, (Z.to_nat (length b)).
  rewrite Z2Nat.id by lia. repeat split; lia.
Qed.

Lemma put_owns h (b b' : str_buf) (c : Z) :
  owns h b -> put b c = Def b' ->
  owns h b'
  /\ exists blk n,
       (n < List.length blk)%nat
       /\ data b' = Some (store blk (Z.of_nat n) (Some c))
       /\ length b' = Z.of_nat (S n).
Proof.
  intros Ho Hput.
  destruct (put_shape b b' c Hput) as (blk & n & Hd & Hl & Hn & ->).
  unfold owns in *. rewrite Hd in Ho. destruct Ho as [Hlive Hsz].
  cbn [data length]. rewrite length_store by exact Hn.
  split; [split; assumption|].
  exists blk, n. split; [exact Hn|]. split; [reflexivity|].
  rewrite wrap_size_small by lia. lia.
Qed.

Lemma put_all_owns h (cs : list Z) : forall b b',
  owns h b -> put_all b cs = Def b' -> owns h b'.
Proof.
  induction cs as [|c cs IH]; intros b b' Ho Hall; cbn [put_all] in Hall.
  - injection Hall as <-. exact Ho.
  - destruct (put b c) as [b1|] eqn:Hput; [|discriminate].
    apply (IH b1 b'); [|exact Hall].
    apply (put_owns h b b1 c Ho Hput).
Qed.

Lemma push_owns alloc_ok h b (c : Z) :
  owns h b ->
  match str_buf_push alloc_ok h b c with
  | Def (false, b', h') =>
      owns h' b'
      /\ exists blk n,
           (n < List.length blk)%nat
           /\ data b' = Some (store blk (Z.of_nat n) (Some c))
           /\ length b' = Z.of_nat (S n)
  | Def (true, b', h') => after_error alloc_ok h' b'
  | Undef => True
  end.
Proof.
  intros Ho. unfold str_buf_push.
  destruct (length b =? capacity b).
  - pose proof (realloc_owns alloc_ok h b _ Ho
                  (wrap_size_range (capacity b + capacity b / 2))) as Hr.
    destruct (realloc _ _ _ _) as [[blk|] h1].
    + destruct (put _ c) as [b2|] eqn:Hput; [|exact I].
      refine (put_owns h1 _ b2 c _ Hput).
      unfold owns. cbn [data]. destruct Hr as [Hlive Hsz].
      split; [exact Hlive|].
      rewrite Hsz. apply wrap_size_range.
    + right. cbn [data]. destruct Hr as [Hlive Hfail]. auto.
  - destruct (put b c) as [b2|] eqn:Hput; [|exact I].
    apply (put_owns h b b2 c Ho Hput).
Qed.

Lemma reserve_owns alloc_ok h b (amt : Z) :
  owns h b ->
  match str_buf_reserve alloc_ok h b amt with
  | (false, b', h') => owns h' b'
  | (true, b', h') => after_error alloc_ok h' b'
  end.
Proof.
  intros Ho. unfold str_buf_reserve.
  destruct (_ >? capacity b); [|exact Ho].
  set (cap := if _ >? _ then _ else _).
  assert (Hcap : 0 <= cap < 2 ^ SIZE_BITS)
    by (unfold cap; destruct (_ >? _); apply wrap_size_range).
  pose proof (realloc_owns alloc_ok h b cap Ho Hcap) as Hr.
  destruct (realloc _ _ _ _) as [[blk|] h1].
  - unfold owns. cbn [data]. destruct Hr as [Hlive Hsz].
    split; [exact Hlive|]. lia.
  - right. cbn [data]. destruct Hr as [Hlive Hfail]. auto.
Qed.

Lemma push_str_owns alloc_ok h b (str : list Z) :
  owns h b ->
  match str_buf_push_str alloc_ok h b str with
  | Def (false, b', h') => owns h' b'
  | Def (true, b', h') => after_error alloc_ok h' b'
  | Undef => True
  end.
Proof.
  intros Ho. unfold str_buf_push_str.
  pose proof (reserve_owns alloc_ok h b (Z.of_nat (List.length str)) Ho)
    as Hr.
  destruct (str_buf_reserve _ _ _ _) as [[[] b1] h1]; [exact Hr|].
  unfold memcpy. unfold owns in Hr.
  destruct (data b1) as [blk|]; [|exact I].
  destruct (Nat.leb_spec (List.length str) (List.length blk)); [|exact I].
  unfold owns. cbn [data].
  rewrite length_app, length_map, length_skipn.
  destruct Hr as [Hlive Hsz]. split; [exact Hlive|]. lia.
Qed.

Lemma push_char_code_owns alloc_ok h b (char_code : Z) :
  owns h b ->
  match str_buf_push_char_code alloc_ok h b char_code with
  | Def (false, b', h') => owns h' b'
  | Def (true, b', h') => after_error alloc_ok h' b'
  | Undef => True
  end.
Proof.
  intros Ho. unfold str_buf_push_char_code.
  pose proof (reserve_owns alloc_ok h b 4 Ho) as Hr.
  destruct (str_buf_reserve _ _ _ _) as [[[] b1] h1]; [exact Hr|].
  destruct (char_code_bytes char_code) as [cs|]; [|left; exact Hr].
  destruct (put_all b1 cs) as [b2|] eqn:Hall; [|exact I].
  apply (put_all_owns h1 cs b1 b2 Hr Hall).
Qed.

Lemma fail_after_error alloc_ok h b :
  after_error alloc_ok h b -> step_tidy alloc_ok (fail h b).
Proof.
  unfold after_error, fail, free.
  intros [Ho|(Hd & Hlive & Hfail)]; cbn [step_tidy tidy].
  - unfold owns in Ho. destruct (data b) as [blk|]; cbn [live].
    + left. destruct Ho as [-> _]. reflexivity.
    + left. exact Ho.
  - rewrite Hd. destruct (live h) as [|[|n]]; [left; reflexivity| |lia].
    right. split; [reflexivity|exact Hfail].
Qed.

Lemma fail_owns alloc_ok h b : owns h b -> step_tidy alloc_ok (fail h b).
Proof. intros Ho. apply fail_after_error. left. exact Ho. Qed.

Lemma push_advance_tidy alloc_ok h b c l :
  owns h b -> step_tidy alloc_ok (push_advance alloc_ok h b c l).
Proof.
  intros Ho. unfold push_advance.
  pose proof (push_owns alloc_ok h b c Ho) as Hp.
  destruct (str_buf_push _ _ _ _) as [[[[] b1] h1]|]; [| |exact I].
  - apply fail_after_error. exact Hp.
  - exact (proj1 Hp).
Qed.

Lemma reserve_write_tidy alloc_ok h b amt cs l :
  owns h b -> step_tidy alloc_ok (reserve_write alloc_ok h b amt cs l).
Proof.
  intros Ho. unfold reserve_write.
  pose proof (reserve_owns alloc_ok h b amt Ho) as Hr.
  destruct (str_buf_reserve _ _ _ _) as [[[] b1] h1].
  - apply fail_after_error. exact Hr.
  - destruct (put_all b1 cs) as [b2|] eqn:Hall; [|exact I].
    apply (put_all_owns h1 cs b1 b2 Hr Hall).
Qed.

Lemma tuple_escape_tidy alloc_ok h b arity l :
  owns h b -> step_tidy alloc_ok (tuple_escape alloc_ok h b arity l).
Proof.
  intros Ho. unfold tuple_escape.
  destruct (peek l =? ch "T").
  { destruct (arity =? 0); [apply reserve_write_tidy; exact Ho|].
    destruct (arity =? 1); [apply fail_owns; exact Ho|].
    apply reserve_write_tidy; exact Ho. }
  destruct (peek l =? ch "H"); [|apply fail_owns; exact Ho].
  destruct (arity =? 0); [apply fail_owns; exact Ho|].
  destruct (arity =? 1); [|apply reserve_write_tidy; exact Ho].
  pose proof (push_str_owns alloc_ok h b (cstr "(# #)") Ho) as Hp.
  destruct (str_buf_push_str _ _ _ _) as [[[[] b1] h1]|]; [| |exact I].
  - apply fail_after_error. exact Hp.
  - exact Hp.
Qed.

Lemma iter_tidy alloc_ok h b l :
  owns h b -> step_tidy alloc_ok (iter alloc_ok h b l).
Proof.
  intros Ho. unfold iter.
  destruct (peek l =? ch "z").
  { destruct (isdigit (peek (advance l))).
    - destruct (hex_loop _ _) as [char_code l2].
      destruct (negb _); [apply fail_owns; exact Ho|].
      pose proof (push_char_code_owns alloc_ok h b char_code Ho) as Hp.
      destruct (str_buf_push_char_code _ _ _ _) as [[[[] b1] h1]|];
        [| |exact I].
      + apply fail_after_error. exact Hp.
      + exact Hp.
    - destruct (_ || _); [apply fail_owns; exact Ho|].
      destruct (_ =? 0); [apply fail_owns; exact Ho|].
      apply push_advance_tidy. exact Ho. }
  destruct (peek l =? ch "Z").
  { destruct (isdigit (peek (advance l))).
    - destruct (dec_loop _ _) as [arity l2].
      apply tuple_escape_tidy. exact Ho.
    - destruct (_ || _); [apply fail_owns; exact Ho|].
      destruct (_ =? 0); [apply fail_owns; exact Ho|].
      apply push_advance_tidy. exact Ho. }
  destruct (peek l =? 0); [|apply push_advance_tidy; exact Ho].
  pose proof (push_owns alloc_ok h b 0 Ho) as Hp.
  destruct (str_buf_push _ _ _ _) as [[[[] b1] h1]|]; [| |exact I].
  - apply fail_after_error. exact Hp.
  - destruct Hp as (Ho1 & blk & n & Hn & Hd & Hl).
    assert (Hlen : 0 <= length b1 < 2 ^ SIZE_BITS).
    { unfold owns in Ho1. rewrite Hd in Ho1. destruct Ho1 as [_ Hsz].
      rewrite length_store in Hsz by exact Hn. lia. }
    pose proof (realloc_owns alloc_ok h1 b1 _ Ho1 Hlen) as Hr.
    unfold realloc in *. rewrite Hd in *.
    destruct (alloc_ok (nalloc h1)).
    + cbn. destruct Hr as [Hlive _]. cbn [live] in Hlive.
      split; [rewrite Hlive; reflexivity|].
      unfold resize. rewrite Hl, Nat2Z.id, firstn_store by exact Hn.
      rewrite length_store by exact Hn.
      replace (S n - List.length blk)%nat with 0%nat by lia.
      cbn [repeat]. rewrite app_nil_r. apply last_last.
    + apply fail_owns. exact Ho1.
Qed.

Lemma run_tidy alloc_ok (fuel : nat) : forall h b l o,
  owns h b -> run alloc_ok fuel h b l = Some o -> tidy alloc_ok o.
Proof.
  induction fuel as [|fuel IH]; intros h b l o Ho Hrun; [discriminate|].
  cbn [run] in Hrun. pose proof (iter_tidy alloc_ok h b l Ho) as Hs.
  destruct (iter alloc_ok h b l) as [h1 b1 l1|o1]; cbn in Hs.
  - apply (IH h1 b1 l1 o Hs Hrun).
  - injection Hrun as <-. exact Hs.
Qed.

Lemma call_tidy (alloc_ok : nat -> bool) (mangled : list Z) :
  exists o,
    haskell_demangle alloc_ok mangled = Some o /\ tidy alloc_ok o.
Proof.
  unfold haskell_demangle.
  destruct (malloc alloc_ok (mkHeap 0 0) DEFAULT_BUF_SIZE) as [p h0] eqn:Hm.
  assert (Ho : owns h0 (mkBuf DEFAULT_BUF_SIZE 0 p)).
  { unfold malloc in Hm. cbn [nalloc live] in Hm.
    destruct (alloc_ok 0%nat); injection Hm as <- <-;
      unfold owns; cbn [data live]; [split; reflexivity|reflexivity]. }
  unfold scan.
  destruct (run_enough alloc_ok (S (List.length mangled)) h0
              (mkBuf DEFAULT_BUF_SIZE 0 p) mangled ltac:(lia)) as (o & Hrun).
  exists o. split; [exact Hrun|].
  exact (run_tidy alloc_ok _ _ _ _ o Ho Hrun).
Qed.

(** X6: whatever the input and whatever the allocator does, the call has an
    outcome; a call that returns a block returns one whose last byte is the
    terminator and leaves no other block allocated; a call that fails
    leaves nothing allocated, unless an allocation has failed, in which case
    it leaves at most one block behind. *)
Theorem haskell_demangle_tidy (alloc_ok : nat -> bool) (mangled : list Z) :
  exists o,
    haskell_demangle alloc_ok mangled = Some o
    /\ match o with
       | Returned res leaked => leaked = 0%nat /\ last res None = Some 0
       | Failed leaked =>
           leaked = 0%nat
           \/ (leaked = 1%nat /\ exists k, alloc_ok k = false)
       | Undefined => True
       end.
Proof. exact (call_tidy alloc_ok mangled). Qed.

(** X7: when no allocation fails, a call ends in one of three ways: it
    returns a block that ends in the terminator, with nothing else
    allocated; it fails with nothing left allocated; or it has run into
    undefined behaviour.  In particular a failing call never leaks. *)
Theorem haskell_demangle_no_leak (mangled : list Z) :
  (exists res,
      haskell_demangle enough_memory mangled = Some (Returned res 0)
      /\ last res None = Some 0)
  \/ haskell_demangle enough_memory mangled = Some (Failed 0)
  \/ haskell_demangle enough_memory mangled = Some Undefined.
Proof.
  destruct (call_tidy enough_memory mangled) as (o & Ho & Ht).
  destruct o as [res leaked|leaked|]; cbn [tidy] in Ht.
  - left. destruct Ht as [-> Hlast]. exists res. auto.
  - right; left. destruct Ht as [->|[_ [k Hk]]]; [exact Ho|discriminate].
  - right; right. exact Ho.
Qed.

(** ** The scanner and its reading as text *)

Lemma ready_bounds h b (w : list Z) :
  ready h b w -> Z.of_nat (List.length w) < 2 ^ 60 ->
  length b = Z.of_nat (List.length w)
  /\ capacity b < 2 ^ 62
  /\ capacity b + capacity b / 2 < 2 ^ SIZE_BITS
  /\ length b + MAX_RESERVE < 2 ^ SIZE_BITS.
Proof.
  intros (Hb & _ & Htwo & Hinv) Hw.
  assert (Hl : length b = Z.of_nat (List.length w))
    by (destruct Hb as (_ & _ & _ & Hl & _); exact Hl).
  unfold MAX_RESERVE in *. rewrite two_pow_size.
  split; [exact Hl|]. Z.div_mod_to_equations. lia.
Qed.

Lemma ready_initial :
  ready (mkHeap 1 1) (mkBuf DEFAULT_BUF_SIZE 0 (Some (fresh 20))) [].
Proof.
  split; [exact holds_initial|]. split; [reflexivity|].
  split; [discriminate|]. cbn [capacity length]. discriminate.
Qed.

Lemma holds_length (b : str_buf) (w : list Z) :
  holds b w -> length b = Z.of_nat (List.length w).
Proof. intros (_ & _ & _ & Hl & _). exact Hl. Qed.

Lemma push_ready h b (w : list Z) (c : Z) :
  ready h b w -> Z.of_nat (List.length w) < 2 ^ 60 ->
  exists b' h',
    str_buf_push enough_memory h b c = Def (false, b', h')
    /\ ready h' b' (w ++ [c]).
Proof.
  intros Hr Hw.
  destruct (ready_bounds h b w Hr Hw) as (Hl & Hcap & Hgrow & _).
  destruct Hr as (Hb & Hlive & Htwo & Hinv).
  destruct (push_holds enough_memory h b w c Hb eq_refl Htwo Hgrow)
    as (b' & h' & Hpush & Hb' & Hlive' & Hmono & Hpol).
  exists b', h'. split; [exact Hpush|].
  pose proof (holds_length b' _ Hb') as Hl'.
  rewrite length_app in Hl'. cbn [List.length] in Hl'.
  split; [exact Hb'|]. split; [congruence|]. split; [lia|].
  unfold MAX_RESERVE in *. lia.
Qed.

Lemma reserve_ready h b (w : list Z) (amt : Z) :
  ready h b w -> Z.of_nat (List.length w) < 2 ^ 60 ->
  0 <= amt <= MAX_RESERVE ->
  exists b' h',
    str_buf_reserve enough_memory h b amt = (false, b', h')
    /\ holds b' w
    /\ live h' = 1%nat
    /\ length b + amt <= capacity b'
    /\ 2 <= capacity b'
    /\ capacity b' < 2 ^ SIZE_BITS
    /\ 2 * capacity b' <= Z.max 40 (3 * (length b + MAX_RESERVE)).
Proof.
  intros Hr Hw Hamt.
  destruct (ready_bounds h b w Hr Hw) as (Hl & Hcap & Hgrow & Hlen).
  destruct Hr as (Hb & Hlive & Htwo & Hinv).
  destruct (reserve_policy enough_memory h b w amt Hb eq_refl)
    as (b' & h' & Hres & Hb' & Hlive' & Hfits & Hnew); [lia..|].
  exists b', h'. split; [exact Hres|]. split; [exact Hb'|].
  split; [congruence|].
  destruct (Z.le_gt_cases (length b + amt) (capacity b)) as [Hle|Hgt].
  - destruct (Hfits Hle) as [-> ->].
    rewrite two_pow_size. repeat split; lia.
  - destruct (Hnew Hgt) as [Hc _]. rewrite Hc.
    rewrite two_pow_size in *. unfold MAX_RESERVE in *.
    Z.div_mod_to_equations. lia.
Qed.

Lemma reserve_write_ready h b (w : list Z) (amt : Z) (cs l : list Z) :
  ready h b w -> Z.of_nat (List.length w) < 2 ^ 60 ->
  Z.of_nat (List.length cs) <= amt -> amt <= MAX_RESERVE ->
  exists h' b',
    reserve_write enough_memory h b amt cs l = Continue h' b' l
    /\ ready h' b' (w ++ cs).
Proof.
  intros Hr Hw Hcs Hamt.
  destruct (reserve_ready h b w amt Hr Hw ltac:(lia))
    as (b1 & h1 & Hres & Hb1 & Hlive & Hroom & Htwo & Hcap & Hinv).
  pose proof (holds_length b w (proj1 Hr)) as Hl.
  pose proof (holds_length b1 w Hb1) as Hl1.
  destruct (put_all_holds cs b1 w Hb1) as (b2 & Hput & Hb2 & Hc2); [lia..|].
  unfold reserve_write. rewrite Hres, Hput.
  exists h1, b2. split; [reflexivity|].
  pose proof (holds_length b2 _ Hb2) as Hl2. rewrite length_app in Hl2.
  split; [exact Hb2|]. split; [exact Hlive|]. split; [lia|]. lia.
Qed.

Lemma char_code_bytes_length (c : Z) (cs : list Z) :
  char_code_bytes c = Some cs -> Z.of_nat (List.length cs) <= 4.
Proof.
  unfold char_code_bytes.
  repeat (destruct (c <=? _)); intros [= <-]; cbn [List.length]; lia.
Qed.

Lemma fail_ready h b (w : list Z) :
  holds b w -> live h = 1%nat -> fail h b = Stop (Failed 0).
Proof.
  intros (blk & Hd & _) Hlive. unfold fail, free. rewrite Hd.
  cbn [live]. rewrite Hlive. reflexivity.
Qed.

Lemma push_advance_follows h b (w : list Z) (c : Z) (l : list Z) :
  ready h b w -> Z.of_nat (List.length w) < 2 ^ 60 ->
  follows w (push_advance enough_memory h b c l) (TText [c] (advance l)).
Proof.
  intros Hr Hw.
  destruct (push_ready h b w c Hr Hw) as (b' & h' & Hpush & Hr').
  unfold push_advance. rewrite Hpush. exists h', b'. auto.
Qed.

Lemma push_char_code_follows h b (w : list Z) (char_code : Z) (l : list Z) :
  ready h b w -> Z.of_nat (List.length w) < 2 ^ 60 ->
  follows w
    match str_buf_push_char_code enough_memory h b char_code with
    | Undef => Stop Undefined
    | Def (true, b1, h1) => fail h1 b1
    | Def (false, b1, h1) => Continue h1 b1 l
    end
    match char_code_bytes char_code with
    | Some cs => TText cs l
    | None => TBad
    end.
Proof.
  intros Hr Hw. unfold str_buf_push_char_code.
  destruct (char_code_bytes char_code) as [cs|] eqn:Hcs.
  - pose proof (char_code_bytes_length _ _ Hcs) as Hlen.
    destruct (reserve_write_ready h b w 4 cs l Hr Hw Hlen)
      as (h' & b' & Hrw & Hr'); [unfold MAX_RESERVE; lia|].
    unfold reserve_write in Hrw.
    destruct (str_buf_reserve _ _ _ _) as [[[] b1] h1];
      [discriminate|].
    destruct (put_all b1 cs) as [b2|]; [|discriminate].
    injection Hrw as -> ->. exists h', b'. auto.
  - destruct (reserve_ready h b w 4 Hr Hw)
      as (b1 & h1 & Hres & Hb1 & Hlive & _); [unfold MAX_RESERVE; lia|].
    rewrite Hres. cbn [follows]. apply (fail_ready h1 b1 w Hb1 Hlive).
Qed.

Lemma push_str_fresh h b (str : list Z) (l : list Z) :
  ready h b [] -> Z.of_nat (List.length str) <= MAX_RESERVE ->
  follows []
    match str_buf_push_str enough_memory h b str with
    | Undef => Stop Undefined
    | Def (true, b1, h1) => fail h1 b1
    | Def (false, b1, h1) => Continue h1 b1 l
    end
    (TText str l).
Proof.
  intros Hr Hstr.
  assert (Hw : Z.of_nat (List.length (@nil Z)) < 2 ^ 60) by reflexivity.
  destruct (reserve_ready h b [] _ Hr Hw
              (conj (Nat2Z.is_nonneg (List.length str)) Hstr))
    as (b1 & h1 & Hres & Hb1 & Hlive & Hroom & Htwo & Hcap & Hinv).
  pose proof (holds_length b [] (proj1 Hr)) as Hl.
  pose proof (holds_length b1 [] Hb1) as Hl1.
  cbn [List.length] in Hl, Hl1.
  unfold str_buf_push_str. rewrite Hres.
  destruct Hb1 as (blk1 & Hd1 & Hsz1 & _ & _).
  unfold memcpy. rewrite Hd1.
  replace (List.length str <=? List.length blk1)%nat with true
    by (symmetry; apply Nat.leb_le; lia).
  cbn [follows app]. eexists; eexists. split; [reflexivity|].
  split; [|split; [exact Hlive|]]; cbn [capacity length].
  - eexists. cbn [data capacity length]. split; [reflexivity|].
    split; [rewrite length_app, length_map, length_skipn; lia|].
    split; [rewrite wrap_size_small by lia; lia|].
    rewrite <- (length_map (fun c => Some c) str) at 1.
    rewrite <- (Nat.add_0_r (List.length (map _ str))).
    rewrite firstn_app_2, firstn_0, app_nil_r. reflexivity.
  - split; [exact Htwo|].
    rewrite wrap_size_small by lia. lia.
Qed.

Lemma wrap32_range (x : Z) : 0 <= wrap32 x < 2 ^ 32.
Proof. unfold wrap32. apply Z.mod_pos_bound. reflexivity. Qed.

Lemma dec_loop_range (l : list Z) : forall arity,
  0 <= arity < 2 ^ 32 -> 0 <= fst (dec_loop arity l) < 2 ^ 32.
Proof.
  induction l as [|c l IH]; intros arity Ha; cbn [dec_loop]; [exact Ha|].
  destruct (isdigit c); [|exact Ha].
  apply IH. unfold dec_body. apply wrap32_range.
Qed.

Lemma tuple_escape_follows h b (w : list Z) (arity : Z) (l : list Z) :
  ready h b w -> Z.of_nat (List.length w) < 2 ^ 60 ->
  0 <= arity < 2 ^ 32 ->
  follows w (tuple_escape enough_memory h b arity l)
          (tuple_text (is_nil w) arity l).
Proof.
  intros Hr Hw Ha. unfold tuple_escape, tuple_text.
  pose proof (fail_ready h b w (proj1 Hr) (proj1 (proj2 Hr))) as Hfail.
  destruct (peek l =? ch "T").
  { destruct (Z.eqb_spec arity 0) as [->|H0].
    { apply reserve_write_ready; try assumption;
        [reflexivity|unfold MAX_RESERVE; lia]. }
    destruct (Z.eqb_spec arity 1) as [->|H1]; [exact Hfail|].
    destruct (Z.ltb_spec (arity + 1) (2 ^ 32)) as [Hlt|Hge]; [|exact I].
    unfold wrap32. rewrite Z.mod_small by lia.
    apply reserve_write_ready; try assumption; [|unfold MAX_RESERVE; lia].
    cbn [List.length]. rewrite length_app. cbn [List.length].
    pose proof (commas_length arity ltac:(lia)). lia. }
  destruct (peek l =? ch "H"); [|exact Hfail].
  destruct (Z.eqb_spec arity 0) as [->|H0]; [exact Hfail|].
  destruct (Z.eqb_spec arity 1) as [->|H1].
  { destruct w as [|c w]; [|exact I]. cbn [is_nil].
    apply push_str_fresh; [exact Hr|unfold MAX_RESERVE; cbn; lia]. }
  destruct (Z.ltb_spec (arity + 3) (2 ^ 32)) as [Hlt|Hge]; [|exact I].
  unfold wrap32. rewrite Z.mod_small by lia.
  apply reserve_write_ready; try assumption; [|unfold MAX_RESERVE; lia].
  cbn [List.length]. rewrite length_app. cbn [List.length].
  pose proof (commas_length arity ltac:(lia)). lia.
Qed.

(** One pass of the loop body in a state in which the accumulator holds
    [w]: the pass does what the reading as text says. *)
Lemma iter_follows h b (w : list Z) (l : list Z) :
  ready h b w -> Z.of_nat (List.length w) < 2 ^ 60 ->
  follows w (iter enough_memory h b l) (next_token (is_nil w) l).
Proof.
  intros Hr Hw. unfold iter, next_token.
  pose proof (fail_ready h b w (proj1 Hr) (proj1 (proj2 Hr))) as Hfail.
  destruct (peek l =? ch "z").
  { destruct (isdigit (peek (advance l))).
    - destruct (hex_loop _ _) as [char_code l2].
      destruct (negb _); [exact Hfail|].
      apply push_char_code_follows; assumption.
    - destruct (_ || _); [exact Hfail|].
      destruct (_ =? 0); [exact Hfail|].
      apply push_advance_follows; assumption. }
  destruct (peek l =? ch "Z").
  { destruct (isdigit (peek (advance l))).
    - pose proof (dec_loop_range (advance (advance l))
                    (dec_body 0 (peek (advance l)))
                    (wrap32_range _)) as Hrange.
      destruct (dec_loop _ _) as [arity l2]. cbn [fst] in Hrange.
      apply tuple_escape_follows; assumption.
    - destruct (_ || _); [exact Hfail|].
      destruct (_ =? 0); [exact Hfail|].
      apply push_advance_follows; assumption. }
  destruct (peek l =? 0); [|apply push_advance_follows; assumption].
  destruct (push_ready h b w 0 Hr Hw) as (b1 & h1 & Hpush & Hr1).
  rewrite Hpush. destruct Hr1 as (Hb1 & Hlive1 & _).
  destruct Hb1 as (blk & Hd & Hsz & Hlen1 & Hfst).
  rewrite Hd, realloc_block by reflexivity.
  rewrite Hlen1, (resize_exact _ _ Hfst).
  cbn [live follows]. rewrite Hlive1. reflexivity.
Qed.

Lemma text_run_extends (fuel : nat) : forall w l r,
  text_run fuel w l = Some r ->
  match r with
  | Text wf | Bad wf => (List.length w <= List.length wf)%nat
  | Slip => True
  end.
Proof.
  induction fuel as [|fuel IH]; intros w l r Hrun; [discriminate|].
  cbn [text_run] in Hrun.
  destruct (next_token (is_nil w) l) as [cs rest| | |].
  - specialize (IH _ _ _ Hrun). destruct r as [wf|wf|]; [| |exact I];
      rewrite length_app in IH; lia.
  - injection Hrun as <-. lia.
  - injection Hrun as <-. lia.
  - injection Hrun as <-. exact I.
Qed.

Lemma run_text (fuel : nat) : forall h b w l r,
  ready h b w -> text_run fuel w l = Some r ->
  match r with
  | Text wf =>
      Z.of_nat (List.length wf) < 2 ^ 60 ->
      run enough_memory fuel h b l = Some (Returned (c_block wf) 0)
  | Bad wf =>
      Z.of_nat (List.length wf) < 2 ^ 60 ->
      run enough_memory fuel h b l = Some (Failed 0)
  | Slip => True
  end.
Proof.
  induction fuel as [|fuel IH]; intros h b w l r Hr Hrun; [discriminate|].
  pose proof (text_run_extends _ _ _ _ Hrun) as Hext.
  cbn [text_run] in Hrun. cbn [run].
  assert (Hstep : Z.of_nat (List.length w) < 2 ^ 60 ->
                  follows w (iter enough_memory h b l)
                          (next_token (is_nil w) l))
    by (intros Hw; apply iter_follows; assumption).
  destruct (next_token (is_nil w) l) as [cs rest| | |]; cbn [follows] in Hstep.
  - destruct r as [wf|wf|]; [| |exact I]; intros Hwf;
      (destruct Hstep as (h' & b' & -> & Hr'); [lia|]).
    + exact (IH h' b' _ rest (Text wf) Hr' Hrun Hwf).
    + exact (IH h' b' _ rest (Bad wf) Hr' Hrun Hwf).
  - injection Hrun as <-. intros Hwf. rewrite Hstep by lia. reflexivity.
  - injection Hrun as <-. intros Hwf. rewrite Hstep by lia. reflexivity.
  - injection Hrun as <-. exact I.
Qed.

Lemma call_text (mangled : list Z) (r : text_result) :
  demangle_text mangled = Some r ->
  match r with
  | Text wf =>
      Z.of_nat (List.length wf) < 2 ^ 60 ->
      haskell_demangle enough_memory mangled
      = Some (Returned (c_block wf) 0)
  | Bad wf =>
      Z.of_nat (List.length wf) < 2 ^ 60 ->
      haskell_demangle enough_memory mangled = Some (Failed 0)
  | Slip => True
  end.
Proof.
  intros Htext. unfold haskell_demangle.
  change (malloc enough_memory (mkHeap 0 0) DEFAULT_BUF_SIZE)
    with (Some (fresh 20), mkHeap 1 1).
  cbv beta iota. unfold scan.
  exact (run_text _ _ _ _ _ r ready_initial Htext).
Qed.

(** X8: the call computes the text-level decoding.  When no allocation
    fails and reading the input as text, pass by pass, reaches the
    terminator with the text [w] (of fewer than 2^60 bytes), the call returns
    a block that holds exactly [w] and the terminator, with nothing else
    allocated: every reallocation, reservation and raw write on the way has
    kept the bytes written before and appended the new ones. *)
Theorem haskell_demangle_text (mangled w : list Z) :
  demangle_text mangled = Some (Text w) ->
  Z.of_nat (List.length w) < 2 ^ 60 ->
  haskell_demangle enough_memory mangled = Some (Returned (c_block w) 0).
Proof. intros Htext. exact (call_text mangled (Text w) Htext). Qed.

(** A symbol of ghc-prim, longer than the initial capacity. *)
Lemma haskell_demangle_text_witness :
  demangle_text (cstr "ghczmprim_GHCziTypes_ZMZN_closure_Z3T_z3bbU")
  = Some (Text (cstr "ghc-prim_GHC.Types_[]_closure_(,,)_" ++ [206; 187]))
  /\ haskell_demangle enough_memory
       (cstr "ghczmprim_GHCziTypes_ZMZN_closure_Z3T_z3bbU")
     = Some (Returned
               (c_block (cstr "ghc-prim_GHC.Types_[]_closure_(,,)_"
                         ++ [206; 187])) 0).
Proof.
  split; [reflexivity|].
  apply haskell_demangle_text; reflexivity.
Defined.

(** X9: when no allocation fails and the reading as text reaches a
    malformed escape (an unmapped letter, a byte that is no letter, a
    numeric escape without its 'U' or above 0x10FFFF, a tuple of arity 1, an
    unboxed tuple of arity 0, another byte behind an arity, or the end of the
    input behind an introducer), the call fails and leaves nothing
    allocated, whatever had been decoded before. *)
Theorem haskell_demangle_bad (mangled w : list Z) :
  demangle_text mangled = Some (Bad w) ->
  Z.of_nat (List.length w) < 2 ^ 60 ->
  haskell_demangle enough_memory mangled = Some (Failed 0).
Proof. intros Htext. exact (call_text mangled (Bad w) Htext). Qed.

(** An introducer at the end of the input, behind more text than the
    initial capacity. *)
Lemma haskell_demangle_bad_witness :
  demangle_text (cstr "base_GHCziShow_showsPrec_Z")
  = Some (Bad (cstr "base_GHC.Show_showsPrec_"))
  /\ haskell_demangle enough_memory (cstr "base_GHCziShow_showsPrec_Z")
     = Some (Failed 0).
Proof.
  split; [reflexivity|].
  apply (haskell_demangle_bad _ (cstr "base_GHC.Show_showsPrec_"));
    reflexivity.
Defined.

(** ** Escapes written from the tables *)

Lemma find_index_sound (t : list Z) : forall c k i,
  find_index t c k = Some i ->
  k <= i < k + Z.of_nat (List.length t)
  /\ nth (Z.to_nat (i - k)) t 0 = c.
Proof.
  induction t as [|x t IH]; intros c k i Hfind; [discriminate|].
  cbn [find_index] in Hfind. cbn [List.length].
  destruct (Z.eqb_spec x c) as [->|Hx].
  - injection Hfind as <-. rewrite Z.sub_diag. split; [lia|reflexivity].
  - destruct (IH c (k + 1) i Hfind) as [Hi Hnth].
    split; [lia|].
    replace (Z.to_nat (i - k)) with (S (Z.to_nat (i - (k + 1)))) by lia.
    exact Hnth.
Qed.

Lemma find_index_none (t : list Z) : forall c k,
  find_index t c k = None -> ~ In c t.
Proof.
  induction t as [|x t IH]; intros c k Hfind; [intros []|].
  cbn [find_index] in Hfind.
  destruct (Z.eqb_spec x c) as [->|Hx]; [discriminate|].
  intros [Hin|Hin]; [congruence|]. exact (IH c (k + 1) Hfind Hin).
Qed.

(** The escape written for a byte is read back as that byte in one pass. *)
Lemma next_token_encode_char (fresh : bool) (c : Z) (rest : list Z) :
  c <> 0 -> next_token fresh (encode_char c ++ rest) = TText [c] rest.
Proof.
  intros Hc. unfold encode_char.
  destruct (find_index z_chars c 0) as [i|] eqn:Hz.
  { destruct (find_index_sound _ _ _ _ Hz) as [Hi Hnth].
    change (Z.of_nat (List.length z_chars)) with 26 in Hi.
    unfold next_token. cbn [app peek hd advance tl].
    change (ch "z" =? ch "z") with true. cbv iota.
    change (ch "a") with 97. change (ch "z") with 122.
    unfold isdigit.
    replace (97 + i <=? 57) with false by lia. rewrite andb_false_r.
    replace (97 + i <? 97) with false by lia.
    replace (97 + i >? 122) with false by lia.
    cbn [orb]. unfold table_get.
    replace (97 + i - 97) with (i - 0) by lia. rewrite Hnth.
    replace (c =? 0) with false by lia. reflexivity. }
  destruct (find_index Z_chars c 0) as [i|] eqn:HZ.
  { destruct (find_index_sound _ _ _ _ HZ) as [Hi Hnth].
    change (Z.of_nat (List.length Z_chars)) with 24 in Hi.
    unfold next_token. cbn [app peek hd advance tl].
    change (ch "Z" =? ch "z") with false.
    change (ch "Z" =? ch "Z") with true. cbv iota.
    change (ch "C") with 67. change (ch "Z") with 90.
    unfold isdigit.
    replace (67 + i <=? 57) with false by lia. rewrite andb_false_r.
    replace (67 + i <? 67) with false by lia.
    replace (67 + i >? 90) with false by lia.
    cbn [orb]. unfold table_get.
    replace (67 + i - 67) with (i - 0) by lia. rewrite Hnth.
    replace (c =? 0) with false by lia. reflexivity. }
  assert (Hnz : c <> ch "z").
  { intros ->. apply (find_index_none _ _ _ Hz). cbn. tauto. }
  assert (HnZ : c <> ch "Z").
  { intros ->. apply (find_index_none _ _ _ HZ). cbn. tauto. }
  unfold next_token. cbn [app peek hd advance tl].
  replace (c =? ch "z") with false by (symmetry; apply Z.eqb_neq; exact Hnz).
  replace (c =? ch "Z") with false by (symmetry; apply Z.eqb_neq; exact HnZ).
  replace (c =? 0) with false by lia. reflexivity.
Qed.

Lemma text_run_encode (s : list Z) : forall fuel w,
  forallb (fun c => negb (c =? 0)) s = true ->
  (List.length s < fuel)%nat ->
  text_run fuel w (encode s) = Some (Text (w ++ s)).
Proof.
  induction s as [|c s IH]; intros fuel w Hs Hfuel.
  - destruct fuel as [|fuel]; [lia|]. cbn [encode flat_map text_run].
    change (next_token (is_nil w) []) with TEnd. cbv iota.
    rewrite app_nil_r. reflexivity.
  - cbn [forallb] in Hs. apply andb_true_iff in Hs as [Hc Hs].
    apply negb_true_iff, Z.eqb_neq in Hc.
    destruct fuel as [|fuel]; [cbn [List.length] in Hfuel; lia|].
    cbn [encode flat_map text_run]. fold (encode s).
    rewrite next_token_encode_char by exact Hc.
    rewrite IH; [|exact Hs|cbn [List.length] in Hfuel; lia].
    rewrite <- app_assoc. reflexivity.
Qed.

Lemma length_encode (s : list Z) :
  (List.length s <= List.length (encode s))%nat.
Proof.
  induction s as [|c s IH]; [apply Nat.le_refl|].
  cbn [encode flat_map List.length]. fold (encode s).
  rewrite length_app.
  assert (1 <= List.length (encode_char c))%nat; [|lia].
  unfold encode_char.
  destruct (find_index z_chars c 0); [cbn; lia|].
  destruct (find_index Z_chars c 0); cbn; lia.
Qed.

(** X10: round trip through the escape tables.  Write every byte of a
    text that has an entry in [z_chars] or [Z_chars] as its introducer and
    letter (so "z" as "zz", "Z" as "ZZ", "(" as "ZL", "." as "zi", ...) and
    leave the other bytes alone: when no allocation fails the call on the
    result returns the text, for every text without a zero byte.  Hence
    every entry of the two tables is reachable and read back as written,
    and every such text has a mangled form. *)
Theorem decode_encode (s : list Z) :
  forallb (fun c => negb (c =? 0)) s = true ->
  Z.of_nat (List.length s) < 2 ^ 60 ->
  haskell_demangle enough_memory (encode s) = Some (Returned (c_block s) 0).
Proof.
  intros Hs Hlen.
  apply (call_text (encode s) (Text s)); [|exact Hlen].
  unfold demangle_text.
  apply (text_run_encode s _ [] Hs).
  pose proof (length_encode s). lia.
Qed.

Lemma decode_encode_witness :
  encode (cstr "ghc-prim_GHC.Types_[]_:+z'Z(#,#)")
  = cstr "ghczmprimzuGHCziTypeszuZMZNzuZCzpzzzqZZZLzh,zhZR"
  /\ haskell_demangle enough_memory
       (cstr "ghczmprimzuGHCziTypeszuZMZNzuZCzpzzzqZZZLzh,zhZR")
     = Some (Returned (c_block (cstr "ghc-prim_GHC.Types_[]_:+z'Z(#,#)")) 0).
Proof.
  split; [reflexivity|].
  apply (decode_encode (cstr "ghc-prim_GHC.Types_[]_:+z'Z(#,#)"));
    reflexivity.
Defined.

(** ** Numeric escapes in range *)

Lemma char_code_bytes_some (c : Z) :
  c <= 0x10FFFF -> exists cs, char_code_bytes c = Some cs.
Proof.
  intros Hc. unfold char_code_bytes.
  destruct (c <=? 127); [eexists; reflexivity|].
  destruct (c <=? 2047); [eexists; reflexivity|].
  destruct (c <=? 65535); [eexists; reflexivity|].
  replace (c <=? 1114111) with true by lia. eexists; reflexivity.
Qed.

(** X11: a numeric escape in range.  In a state in which the accumulator
    holds [w] and the allocation of this pass, if there is one, succeeds: when
    the run (a decimal digit, then digits and lowercase a to f, ended by 'U')
    denotes a value that is at most 0x10FFFF after reduction modulo 2^32,
    the pass appends the bytes [char_code_bytes] gives for that value, at
    most four, loses no block, and leaves the cursor behind the 'U'. *)
Theorem numeric_escape_appends (alloc_ok : nat -> bool) (h : heap)
        (b : str_buf) (w : list Z) (d : Z) (ds rest : list Z) :
  holds b w -> capacity b < 2 ^ 62 -> alloc_ok (nalloc h) = true ->
  isdigit d = true -> forallb is_lower_hex ds = true ->
  hex_value (d :: ds) mod 2 ^ 32 <= 0x10FFFF ->
  exists cs h' b',
    char_code_bytes (hex_value (d :: ds) mod 2 ^ 32) = Some cs
    /\ (List.length cs <= 4)%nat
    /\ iter alloc_ok h b (ch "z" :: d :: ds ++ ch "U" :: rest)
       = Continue h' b' rest
    /\ holds b' (w ++ cs)
    /\ live h' = live h.
Proof.
  intros Hb Hcap Hok Hd Hds Hrange.
  destruct (char_code_bytes_some _ Hrange) as (cs & Hcs).
  pose proof (char_code_bytes_length _ _ Hcs) as Hlen.
  destruct (capacity_grows_in_range b w Hb Hcap) as [Hgrow Hroom].
  destruct (reserve_holds alloc_ok h b w 4 Hb Hok)
    as (b1 & h1 & Hres & Hb1 & Hfits & Hcap1 & Hlive); [lia..|].
  pose proof (holds_length b w Hb) as Hl.
  pose proof (holds_length b1 w Hb1) as Hl1.
  destruct (put_all_holds cs b1 w Hb1) as (b2 & Hput & Hb2 & _); [lia..|].
  exists cs, h1, b2. split; [exact Hcs|]. split; [lia|].
  rewrite iter_numeric by assumption.
  unfold str_buf_push_char_code. rewrite Hres, Hcs, Hput.
  auto.
Qed.

(** After "a", the escape "z3bbU" appends the two bytes of U+03BB. *)
Lemma numeric_escape_appends_witness :
  holds buf_a (cstr "a")
  /\ hex_value (cstr "3bb") mod 2 ^ 32 = 0x3BB
  /\ exists cs h' b',
       char_code_bytes 0x3BB = Some cs
       /\ (List.length cs <= 4)%nat
       /\ iter enough_memory (mkHeap 1 1) buf_a (cstr "z3bbUx")
          = Continue h' b' (cstr "x")
       /\ holds b' (cstr "a" ++ cs)
       /\ live h' = 1%nat.
Proof.
  assert (Ha : holds buf_a (cstr "a")).
  { exists (Some (ch "a") :: repeat None 19). repeat split. }
  split; [exact Ha|]. split; [reflexivity|].
  apply (numeric_escape_appends enough_memory (mkHeap 1 1) buf_a (cstr "a")
           (ch "3") (cstr "bb") (cstr "x") Ha);
    try reflexivity; discriminate.
Defined.

(** ** More edges *)

(** X12: [str_buf_push_str] on an accumulator in which nothing has been
    written yet: when the allocation succeeds, the accumulator holds
    exactly the bytes of the string afterwards, and no block is lost.  (The
    copy goes to the start of the block, which is the right place only
    here.) *)
Theorem str_buf_push_str_first (alloc_ok : nat -> bool) (h : heap)
        (b : str_buf) (str : list Z) :
  holds b [] -> alloc_ok (nalloc h) = true ->
  capacity b < 2 ^ 62 -> Z.of_nat (List.length str) < 2 ^ 32 ->
  exists b' h',
    str_buf_push_str alloc_ok h b str = Def (false, b', h')
    /\ holds b' str
    /\ Z.of_nat (List.length str) <= capacity b'.
Proof.
  intros Hb Hok Hcap Hstr.
  destruct (push_str_at_start alloc_ok h b [] str Hb Hok Hcap Hstr)
    as (b' & h' & blk & Hpush & Hd & Hsz & Hfst & Hl).
  exists b', h'. split; [exact Hpush|].
  assert (Hh : holds b' str) by (exists blk; auto).
  split; [exact Hh|].
  apply holds_within in Hh. cbn [List.length] in Hl. lia.
Qed.

Lemma str_buf_push_str_first_witness :
  exists b' h',
    str_buf_push_str enough_memory (mkHeap 1 1)
                     (mkBuf 20 0 (Some (fresh 20))) (cstr "(# #)")
    = Def (false, b', h')
    /\ holds b' (cstr "(# #)")
    /\ 5 <= capacity b'.
Proof.
  apply (str_buf_push_str_first enough_memory (mkHeap 1 1)
           (mkBuf 20 0 (Some (fresh 20))) (cstr "(# #)") holds_initial);
    reflexivity.
Defined.

(** X13: the reservation of the largest tuples.  [RESERVE(arity + 1)] and
    [RESERVE(arity + 3)] add in 32 bits: for an ordinary tuple of arity
    2^32 - 1 and an unboxed tuple of arity 2^32 - 3 the sum is 0, nothing
    is reserved, and with a block of fewer than 2^32 bytes the writes that
    follow run over its end, whatever the allocator does. *)
Theorem tuple_reservation_wraps (alloc_ok : nat -> bool) (h : heap)
        (b : str_buf) (w ds rest : list Z) :
  holds b w -> capacity b < 2 ^ 32 ->
  ds <> [] -> forallb isdigit ds = true ->
  (decimal_value ds mod 2 ^ 32 = 2 ^ 32 - 1 ->
   iter alloc_ok h b (ch "Z" :: ds ++ ch "T" :: rest) = Stop Undefined)
  /\ (decimal_value ds mod 2 ^ 32 = 2 ^ 32 - 3 ->
      iter alloc_ok h b (ch "Z" :: ds ++ ch "H" :: rest) = Stop Undefined).
Proof.
  intros Hb Hcap Hne Hds. split; intros Ha.
  - rewrite iter_tuple by (assumption || reflexivity).
    apply (tuple_escape_T_wraps alloc_ok h b w); assumption.
  - rewrite iter_tuple by (assumption || reflexivity).
    apply (tuple_escape_H_wraps alloc_ok h b w); assumption.
Qed.

Lemma tuple_reservation_wraps_witness :
  decimal_value (cstr "4294967295") mod 2 ^ 32 = 2 ^ 32 - 1
  /\ iter enough_memory (mkHeap 1 1) buf_a (cstr "Z4294967295T")
     = Stop Undefined.
Proof.
  split; [reflexivity|].
  refine (proj1 (tuple_reservation_wraps enough_memory (mkHeap 1 1) buf_a
                   (cstr "a") (cstr "4294967295") [] _ _ _ _) _);
    try reflexivity; try discriminate.
  exists (Some (ch "a") :: repeat None 19). repeat split.
Defined.

(** X14: the unchecked [malloc].  When the first allocation fails, the
    call on an input that starts with a byte other than the two
    introducers, or on the empty input, writes through the null pointer in
    its first pass. *)
Theorem first_write_through_null (alloc_ok : nat -> bool)
        (mangled : list Z) :
  alloc_ok 0%nat = false ->
  peek mangled <> ch "z" -> peek mangled <> ch "Z" ->
  haskell_demangle alloc_ok mangled = Some Undefined.
Proof.
  intros Hfail Hz HZ. unfold haskell_demangle, malloc.
  cbn [nalloc]. rewrite Hfail. rewrite scan_step. unfold iter.
  replace (peek mangled =? ch "z") with false
    by (symmetry; apply Z.eqb_neq; exact Hz).
  replace (peek mangled =? ch "Z") with false
    by (symmetry; apply Z.eqb_neq; exact HZ).
  destruct (peek mangled =? 0); reflexivity.
Qed.

Lemma first_write_through_null_witness :
  haskell_demangle (fails_at 0) (cstr "main") = Some Undefined.
Proof.
  apply (first_write_through_null (fails_at 0) (cstr "main"));
    [reflexivity|discriminate|discriminate].
Defined.
